(** * Session routing and lifecycle of the Koa MCP server

    A shallow embedding of the request handlers that [createMcpServer]
    installs on the [/mcp] endpoint (POST, GET, DELETE) and of the
    per-session loop of its shutdown handler, together with the
    [transports] map they share.

    The repository holds three revisions of the server runner.  The
    handlers embedded here are those of the most complete one (with the
    logger, [gracefulShutdown] and the four-way POST dispatch); the debug
    revision has the same dispatch and differs only in two response
    headers, which [Revision] selects.  The earliest revision has no
    third POST branch (a token that misses is rejected with status 400);
    its POST handler is embedded separately, as [post_mcp_first].  The
    middleware in front of the handlers and the tools registered on the
    MCP server ([multi-greet], [start-notification-stream]) follow.

    The MCP SDK ([StreamableHTTPServerTransport], [McpServer]) is not part
    of the repository.  It is an oracle here: for every call the handlers
    make into it, [lib] says which of the callbacks installed by the
    handlers it fires, whether response headers were written and whether
    the call raises.  The callbacks themselves are code of the repository
    and are embedded as written.

    [transports] is a plain object.  The read [transports[sessionId]] of
    the handlers, made with a token chosen by the client, therefore also
    finds the members of [Object.prototype] ([constructor], [toString],
    [__proto__], ...): [registry_get] returns them as [Inherited], and a
    call of [handleRequest] on one raises.  Writes are made under session
    ids only.

    A handler runs to completion before the next one starts; what other
    requests may do while a handler awaits is covered, for the registry
    invariants, by [reachable], which closes the initial world under the
    single operations in any order. *)

From Stdlib Require Import QArith Qround.
From stdpp Require Import gmap strings list fin_maps pretty.

Open Scope string_scope.
Open Scope list_scope.
Open Scope nat_scope.

(** ** Data model *)

(** A transport object is a heap cell; [tref] is its address.  Two
    references are the same instance iff they are the same address. *)
Abbreviation tref := nat.

(** [sessionIdGenerator]: [() => randomUUID()] or [() => sessionId]. *)
Inductive Generator :=
| GenRandomUUID
| GenFixed (sid : string).

(** The two fields of a [StreamableHTTPServerTransport] the handlers read:
    the generator passed to the constructor and the [sessionId] property,
    [undefined] ([None]) until the engine assigns it. *)
Record Transport := mkTransport {
  sessionIdGenerator : Generator;
  sessionId : option string
}.

Inductive Method := POST | GET | DELETE.

(** Who executed a registry write: the statements of a handler body, or a
    callback ([onsessioninitialized], [onclose]) fired by the SDK. *)
Inductive Origin := ByHandler | ByCallback.

Inductive Event :=
| EvConstruct (r : tref) (g : Generator)
| EvConnect (r : tref)
| EvHandleRequest (m : Method) (r : tref)
| EvClose (r : tref)
| EvPut (o : Origin) (k : string) (r : tref)
| EvDelete (o : Origin) (k : string).

(** Process-wide state: the [transports] object as the map of its own
    string keys to transport references (what the object inherits from
    [Object.prototype] is found by the read, [registry_get], and is not
    part of the map), the transport objects, the number of
    [randomUUID()] draws made so far, and the chronological trace of
    what was done (oldest first). *)
Record World := mkWorld {
  transports : gmap string tref;
  heap : list Transport;
  uuids : nat;
  trace : list Event
}.

Definition initial_world : World :=
  {| transports := ∅; heap := []; uuids := 0; trace := [] |}.

Definition set_transports (f : gmap string tref → gmap string tref)
    (w : World) : World :=
  {| transports := f (transports w); heap := heap w;
     uuids := uuids w; trace := trace w |}.

Definition set_heap (f : list Transport → list Transport) (w : World) : World :=
  {| transports := transports w; heap := f (heap w);
     uuids := uuids w; trace := trace w |}.

Definition draw_uuid (w : World) : World :=
  {| transports := transports w; heap := heap w;
     uuids := S (uuids w); trace := trace w |}.

Definition log (e : Event) (w : World) : World :=
  {| transports := transports w; heap := heap w;
     uuids := uuids w; trace := trace w ++ [e] |}.

(** A new transport object: it gets the next free address, and has no
    [sessionId] yet. *)
Definition alloc (g : Generator) (w : World) : World :=
  log (EvConstruct (length (heap w)) g)
      (set_heap (λ h, h ++ [{| sessionIdGenerator := g; sessionId := None |}])
                w).

(** JavaScript truthiness of a [string | undefined]: [undefined] and the
    empty string are falsy. *)
Definition truthy (s : option string) : bool :=
  match s with
  | Some (String _ _) => true
  | _ => false
  end.
Arguments truthy : simpl never.

(** [transports] is a plain object ([{}]), so the read [transports[k]]
    also finds what every object inherits from [Object.prototype]: its
    twelve members, all of them functions or objects, hence truthy.  None
    of them is a transport. *)
Definition object_prototype_names : list string :=
  ["constructor"; "__defineGetter__"; "__defineSetter__"; "hasOwnProperty";
   "__lookupGetter__"; "__lookupSetter__"; "isPrototypeOf";
   "propertyIsEnumerable"; "toString"; "valueOf"; "__proto__";
   "toLocaleString"].

Definition inherited (k : string) : bool :=
  bool_decide (k ∈ object_prototype_names).

(** What [transports[k]] evaluates to when it is not [undefined]: the
    transport stored under the own key [k], or else the member of
    [Object.prototype] of that name. *)
Inductive Property :=
| Stored (transport : tref)
| Inherited.

(** [transports[sessionId]]; the handlers evaluate it only behind a
    truthiness test of [sessionId].  An own key shadows an inherited
    name. *)
Definition registry_get (sid : option string) (w : World)
    : option Property :=
  sid ≫= λ s,
    match transports w !! s with
    | Some r => Some (Stored r)
    | None => if inherited s then Some Inherited else None
    end.

(** [transport.sessionId] *)
Definition transport_sessionId (transport : tref) (w : World) : option string :=
  heap w !! transport ≫= sessionId.

(** ** The callbacks the handlers install on every transport

    Both construction sites of the POST handler install the same two
    closures over [transports] and [transport]. *)

(** [onsessioninitialized: (sid) => { transports[sid] = transport; }] *)
Definition onsessioninitialized (transport : tref) (sid : string)
    (w : World) : World :=
  log (EvPut ByCallback sid transport)
      (set_transports <[sid := transport]> w).

(** [transport.onclose = () => { const sid = transport.sessionId;
      if (sid && transports[sid]) { delete transports[sid]; } }]

    [sid] is the transport's own id: it was drawn by [randomUUID()] or is
    a token admitted by the third POST branch, for which the read was
    [undefined].  The test is therefore the test for an own key.  (For a
    name of [Object.prototype] that is not an own key the [delete] would
    remove nothing, and the world would be the same.) *)
Definition onclose (transport : tref) (w : World) : World :=
  match transport_sessionId transport w with
  | Some (String _ _ as sid) =>
    if bool_decide (is_Some (transports w !! sid))
    then log (EvDelete ByCallback sid) (set_transports (delete sid) w)
    else w
  | _ => w
  end.

(** ** The Koa context of one request *)

Inductive RespBody :=
| BodyUnset
| BodyJsonRpcError (jsonrpc : string) (code : Z) (message : string)
    (id : option Z)
| BodyText (s : string).

Record Koa := mkKoa {
  ctx_status : nat;
  ctx_body : RespBody;
  ctx_headers : list (string * string);
  ctx_respond : bool;
  res_headersSent : bool
}.

Definition fresh_koa : Koa :=
  {| ctx_status := 404; ctx_body := BodyUnset; ctx_headers := [];
     ctx_respond := true; res_headersSent := false |}.

(** ** What the SDK may do during one call *)

(** What the SDK can do to the world during a call on a transport is to
    fire the callbacks installed on it.  [AssignSession]: the engine
    assigns the transport its session id and fires
    [onsessioninitialized].  [SignalClose]: the transport signals closure
    and fires [onclose]. *)
Inductive LibStep := AssignSession | SignalClose.

Record LibRun := mkLibRun {
  lr_steps : list LibStep;
  lr_headersSent : bool;
  lr_raises : bool
}.

(** The calls the handlers make into the SDK: [server.connect(transport)],
    [transport.handleRequest(req, res, parsedBody?)], [transport.close()]. *)
Inductive LibCall (Body : Type) :=
| CallConnect
| CallHandleRequest (m : Method) (parsedBody : option Body)
| CallClose.
Arguments CallConnect {Body}.
Arguments CallHandleRequest {Body} m parsedBody.
Arguments CallClose {Body}.

Inductive Revision := RevLogger | RevDebug.

(** The parameters of the development: the type of parsed request bodies
    with the SDK's [isInitializeRequest], the results of the successive
    calls of [randomUUID()], and the SDK's behaviour on a call on
    transport [r] in world [w]. *)
Class Sdk := {
  Body : Type;
  isInitializeRequest : Body → bool;
  randomUUID : nat → string;
  lib : LibCall Body → tref → World → LibRun
}.

Section Server.

Context {sdk : Sdk}.

Record Request := mkRequest {
  req_sessionId : option string;   (* ctx.headers['mcp-session-id'] *)
  req_body : Body                  (* ctx.request.body *)
}.

(** Modelled from the spec: the transport library is an external
    collaborator; "the underlying engine assigns the id" and then fires
    the initialization callback, once per transport.  The step evaluates
    the transport's own generator, stores the result in [sessionId] and
    calls [onsessioninitialized] with it when it is truthy; on a transport
    that already has an id it does nothing. *)
Definition assign_session (r : tref) (w : World) : World :=
  match heap w !! r with
  | None => w
  | Some t =>
    match sessionId t with
    | Some _ => w
    | None =>
      let '(sid, w1) :=
        match sessionIdGenerator t with
        | GenRandomUUID => (randomUUID (uuids w), draw_uuid w)
        | GenFixed s => (s, w)
        end in
      let w2 :=
        set_heap <[r := {| sessionIdGenerator := sessionIdGenerator t;
                           sessionId := Some sid |}]> w1 in
      if truthy (Some sid) then onsessioninitialized r sid w2 else w2
    end
  end.

(** Modelled from the spec: what a step of the transport library does
    to the world; on closure the library invokes the [onclose] callback
    of the transport. *)
Definition lib_step (r : tref) (w : World) (s : LibStep) : World :=
  match s with
  | AssignSession => assign_session r w
  | SignalClose => onclose r w
  end.

Definition call_event (c : LibCall Body) (r : tref) : Event :=
  match c with
  | CallConnect => EvConnect r
  | CallHandleRequest m _ => EvHandleRequest m r
  | CallClose => EvClose r
  end.

(** The effect of one SDK call on the world: the call is recorded, then
    the callbacks it fires run in order. *)
Definition lib_effect (c : LibCall Body) (r : tref) (w : World) : World :=
  foldl (lib_step r) (log (call_event c r) w) (lr_steps (lib c r w)).

(** ** A state and exception monad for handler bodies *)

Record St := mkSt { world : World; koa : Koa }.

Inductive Res (A : Type) :=
| Ret (a : A)
| Throw.
#[global] Arguments Ret {A} a.
#[global] Arguments Throw {A}.

Definition M (A : Type) : Type := St → Res A * St.

#[global] Instance M_ret : MRet M := λ A a st, (Ret a, st).

#[global] Instance M_bind : MBind M := λ A B f m st,
  match m st with
  | (Ret a, st') => f a st'
  | (Throw, st') => (Throw, st')
  end.

Definition throw {A} : M A := λ st, (Throw, st).

Definition try_catch (m : M unit) (handler : M unit) : M unit := λ st,
  match m st with
  | (Ret a, st') => (Ret a, st')
  | (Throw, st') => handler st'
  end.

Definition getW : M World := λ st, (Ret (world st), st).

Definition modifyW (f : World → World) : M unit := λ st,
  (Ret (), {| world := f (world st); koa := koa st |}).

Definition modifyK (f : Koa → Koa) : M unit := λ st,
  (Ret (), {| world := world st; koa := f (koa st) |}).

Definition headersSent : M bool := λ st, (Ret (res_headersSent (koa st)), st).

(** [ctx.status = n] *)
Definition set_status (n : nat) : M unit :=
  modifyK (λ k, {| ctx_status := n; ctx_body := ctx_body k;
                   ctx_headers := ctx_headers k; ctx_respond := ctx_respond k;
                   res_headersSent := res_headersSent k |}).

(** [ctx.body = b] *)
Definition set_body (b : RespBody) : M unit :=
  modifyK (λ k, {| ctx_status := ctx_status k; ctx_body := b;
                   ctx_headers := ctx_headers k; ctx_respond := ctx_respond k;
                   res_headersSent := res_headersSent k |}).

(** [ctx.set(name, value)] *)
Definition ctx_set (name value : string) : M unit :=
  modifyK (λ k, {| ctx_status := ctx_status k; ctx_body := ctx_body k;
                   ctx_headers := ctx_headers k ++ [(name, value)];
                   ctx_respond := ctx_respond k;
                   res_headersSent := res_headersSent k |}).

(** [ctx.respond = b] *)
Definition set_respond (b : bool) : M unit :=
  modifyK (λ k, {| ctx_status := ctx_status k; ctx_body := ctx_body k;
                   ctx_headers := ctx_headers k; ctx_respond := b;
                   res_headersSent := res_headersSent k |}).

Definition mark_headersSent (b : bool) (k : Koa) : Koa :=
  {| ctx_status := ctx_status k; ctx_body := ctx_body k;
     ctx_headers := ctx_headers k; ctx_respond := ctx_respond k;
     res_headersSent := res_headersSent k || b |}.

(** [await] of an SDK call on [transport]. *)
Definition call (c : LibCall Body) (transport : tref) : M unit := λ st,
  let run := lib c transport (world st) in
  let st' := {| world := lib_effect c transport (world st);
                koa := mark_headersSent (lr_headersSent run) (koa st) |} in
  if lr_raises run then (Throw, st') else (Ret (), st').

(** [await v.method(...)] on a value read from [transports].  A member
    of [Object.prototype] has no [handleRequest]: the call is a call of
    [undefined], which raises a TypeError before anything is done. *)
Definition call_on (c : LibCall Body) (v : Property) : M unit :=
  match v with
  | Stored transport => call c transport
  | Inherited => throw
  end.

(** Using a value that may be [undefined] as an object or as a string:
    a method call on [undefined] raises a TypeError. *)
Definition defined {A} (o : option A) : M A :=
  match o with
  | Some a => mret a
  | None => throw
  end.

(** [new StreamableHTTPServerTransport({ sessionIdGenerator: g, ...,
    onsessioninitialized })] followed by [transport.onclose = ...]. *)
Definition construct (g : Generator) : M tref := λ st,
  (Ret (length (heap (world st))),
   {| world := alloc g (world st); koa := koa st |}).

(** [transports[k] = transport] executed by a handler body. *)
Definition put_direct (k : string) (transport : tref) : M unit :=
  modifyW (λ w, log (EvPut ByHandler k transport)
                  (set_transports <[k := transport]> w)).

(** ** [router.post('/mcp', ...)] *)

Inductive Route := Case1 | Case2 | Case3 | Case4 | Case5.

(** The five-way [if] / [else if] chain of the POST handler. *)
Definition post_route (ctx : Request) (w : World) : Route :=
  let sid := req_sessionId ctx in
  let hit := bool_decide (is_Some (registry_get sid w)) in
  if truthy sid && hit then Case1
  else if negb (truthy sid) && isInitializeRequest (req_body ctx) then Case2
  else if truthy sid && negb hit then Case3
  else if negb (truthy sid) && negb (isInitializeRequest (req_body ctx))
  then Case4
  else Case5.

Definition bad_request : RespBody :=
  BodyJsonRpcError "2.0" (-32000) "Bad Request: No valid session ID provided"
    None.

Definition internal_error : RespBody :=
  BodyJsonRpcError "2.0" (-32603) "Internal server error" None.

(** The statements after the chain:
    [await transport.handleRequest(ctx.req, ctx.res, ctx.request.body);
     ctx.respond = false; return;] *)
Definition post_tail (ctx : Request) (transport : Property) : M unit :=
  call_on (CallHandleRequest POST (Some (req_body ctx))) transport;;
  set_respond false.

(** Third branch up to and including [transports[sessionId] = transport].
    The branch is taken only for a truthy [sessionId], so [defined] does
    not raise here. *)
Definition post_case3_create (ctx : Request) : M tref :=
  sid ← defined (req_sessionId ctx);
  transport ← construct (GenFixed sid);
  call CallConnect transport;;
  put_direct sid transport;;
  mret transport.

Definition post_try (rev : Revision) (ctx : Request) : M unit :=
  w ← getW;
  match post_route ctx w with
  | Case1 =>
    transport ← defined (registry_get (req_sessionId ctx) w);
    post_tail ctx transport
  | Case2 =>
    transport ← construct GenRandomUUID;
    call CallConnect transport;;
    call (CallHandleRequest POST (Some (req_body ctx))) transport;;
    w' ← getW;
    match transport_sessionId transport w' with
    | Some (String _ _ as sid) => ctx_set "mcp-session-id" sid
    | _ => mret ()
    end;;
    match rev with
    | RevLogger =>
      sent ← headersSent;
      if negb sent then
        ctx_set "Content-Type" "application/json";;
        ctx_set "Connection" "keep-alive"
      else mret ()
    | RevDebug => mret ()
    end;;
    set_respond false
  | Case3 =>
    transport ← post_case3_create ctx;
    post_tail ctx (Stored transport)
  | Case4 =>
    set_status 400;;
    set_body bad_request
  | Case5 =>
    set_status 400;;
    set_body bad_request
  end.

Definition post_catch : M unit :=
  sent ← headersSent;
  if negb sent then set_status 500;; set_body internal_error
  else mret ().

Definition post_mcp (rev : Revision) (ctx : Request) : M unit :=
  try_catch (post_try rev ctx) post_catch.

(** ** [router.get('/mcp', ...)] and [router.delete('/mcp', ...)] *)

Definition invalid_session : RespBody := BodyText "Invalid or missing session ID".

Definition stream_try (m : Method) (ctx : Request) : M unit :=
  let sid := req_sessionId ctx in
  w ← getW;
  if negb (truthy sid) || negb (bool_decide (is_Some (registry_get sid w)))
  then
    set_status 400;;
    set_body invalid_session
  else
    transport ← defined (registry_get sid w);
    call_on (CallHandleRequest m None) transport.

Definition stream_catch (message : string) : M unit :=
  sent ← headersSent;
  if negb sent then set_status 500;; set_body (BodyText message)
  else mret ().

Definition get_mcp (ctx : Request) : M unit :=
  try_catch (stream_try GET ctx) (stream_catch "Internal server error").

Definition delete_mcp (ctx : Request) : M unit :=
  try_catch (stream_try DELETE ctx)
    (stream_catch "Error processing session termination").

(** Running a handler on a fresh Koa context. *)
Definition start (w : World) : St := {| world := w; koa := fresh_koa |}.

Definition serve (h : M unit) (w : World) : Koa * World :=
  let st := (h (start w)).2 in
  (koa st, world st).

(** ** The per-session loop of [gracefulShutdown]

    [for (const sessionId in transports) { try {
       await transports[sessionId].close(); delete transports[sessionId];
     } catch (error) { logger.error(...) } }]

    [ks] is the order in which [for ... in] enumerates the keys; a key
    deleted before it is visited is not visited. *)

Definition shutdown_iteration (w : World) (k : string) : World :=
  match transports w !! k with
  | None => w
  | Some transport =>
    let w1 := lib_effect CallClose transport w in
    if lr_raises (lib CallClose transport w) then w1
    else log (EvDelete ByHandler k) (set_transports (delete k) w1)
  end.

Definition gracefulShutdown (ks : list string) (w : World) : World :=
  foldl shutdown_iteration w ks.

(** ** Reachable worlds

    [served]: the worlds reached by running whole handlers one after the
    other: the handlers run from a served world, a live transport may
    signal closure on its own (client disconnect), and the shutdown loop
    may have visited any list of keys.  [served_post_inserted] is the
    point of the third POST branch right after its direct insertion,
    before the request is handled.

    [reachable]: the worlds reached by the single operations the handlers
    and callbacks are made of, in any order: constructing a transport,
    the engine assigning a session id (which fires the initialization
    callback), the close callback, the direct insertion of the third POST
    branch (of a transport constructed around that token), and the
    [delete] of the shutdown loop.  Every served world is reachable, and
    so is every point in the middle of a handler, whatever other handlers
    did while it awaited.  Only the registry and the transports of a
    reachable world are meaningful; its trace is not constrained. *)

Inductive served : World → Prop :=
| served_initial : served initial_world
| served_post rev ctx w :
    served w → served (serve (post_mcp rev ctx) w).2
| served_post_inserted ctx w :
    served w → post_route ctx w = Case3 →
    served (world (post_case3_create ctx (start w)).2)
| served_get ctx w :
    served w → served (serve (get_mcp ctx) w).2
| served_delete ctx w :
    served w → served (serve (delete_mcp ctx) w).2
| served_disconnect r w :
    served w → served (onclose r w)
| served_shutdown ks w :
    served w → served (gracefulShutdown ks w).

(** The transport at [r] was constructed with generator [g]. *)
Definition has_generator (w : World) (r : tref) (g : Generator) : Prop :=
  ∃ t, heap w !! r = Some t ∧ sessionIdGenerator t = g.

Inductive reachable : World → Prop :=
| reach_initial : reachable initial_world
| reach_log e w :
    reachable w → reachable (log e w)
| reach_construct g w :
    reachable w → reachable (alloc g w)
| reach_assign_session r w :
    reachable w → reachable (assign_session r w)
| reach_onclose r w :
    reachable w → reachable (onclose r w)
| reach_put_case3 sid r w :
    reachable w → truthy (Some sid) = true →
    has_generator w r (GenFixed sid) →
    reachable (log (EvPut ByHandler sid r) (set_transports <[sid := r]> w))
| reach_delete k w :
    reachable w →
    reachable (log (EvDelete ByHandler k) (set_transports (delete k) w)).

(** ** Registry invariants *)

(** Transport [t] is the session [k]: its [sessionId] is [k], or it has
    none yet and its generator can only yield [k]. *)
Definition bound_to (k : string) (t : Transport) : Prop :=
  sessionId t = Some k ∨
  (sessionId t = None ∧ sessionIdGenerator t = GenFixed k).

Definition bound (w : World) (r : tref) (k : string) : Prop :=
  ∃ t, heap w !! r = Some t ∧ bound_to k t.

(** Every key is the session id of the transport stored under it. *)
Definition key_consistent (w : World) : Prop :=
  ∀ k r, transports w !! k = Some r → bound w r k.

(** No key is the empty string. *)
Definition keys_truthy (w : World) : Prop :=
  ∀ k r, transports w !! k = Some r → truthy (Some k) = true.

Definition registry_wf (w : World) : Prop :=
  key_consistent w ∧ keys_truthy w.

(** A transport with a constant generator has no id or that constant. *)
Definition ids_from_generator (w : World) : Prop :=
  ∀ r t s, heap w !! r = Some t → sessionIdGenerator t = GenFixed s →
           sessionId t = None ∨ sessionId t = Some s.

(** The response of a GET or DELETE handler that rejects the request. *)
Definition invalid_session_response : Koa :=
  {| ctx_status := 400; ctx_body := BodyText "Invalid or missing session ID";
     ctx_headers := []; ctx_respond := true; res_headersSent := false |}.

(** ** Registry writes recorded in the trace *)

Definition is_put (o : Origin) (r : tref) (e : Event) : bool :=
  match e, o with
  | EvPut ByHandler _ r', ByHandler => bool_decide (r' = r)
  | EvPut ByCallback _ r', ByCallback => bool_decide (r' = r)
  | _, _ => false
  end.

(** How many times transport [r] was stored in the registry by [o]. *)
Fixpoint count_puts (o : Origin) (r : tref) (evs : list Event) : nat :=
  match evs with
  | [] => 0
  | e :: evs => (if is_put o r e then 1 else 0) + count_puts o r evs
  end.

(** What the trace must say about the transport at an address, given
    what the heap holds there.  The callback has stored it once if it has
    a truthy session id and never otherwise; the handler has stored it at
    most once, and never if its id is drawn by [randomUUID]; nothing was
    stored for an address not yet in use. *)
Definition callback_puts_ok (t : option Transport) (n : nat) : Prop :=
  match t with
  | None => n = 0
  | Some t => n = if truthy (sessionId t) then 1 else 0
  end.

Definition handler_puts_ok (t : option Transport) (n : nat) : Prop :=
  match t with
  | None => n = 0
  | Some t =>
    match sessionIdGenerator t with
    | GenRandomUUID => n = 0
    | GenFixed _ => n ≤ 1
    end
  end.

Definition put_discipline (w : World) : Prop :=
  ∀ r,
    callback_puts_ok (heap w !! r) (count_puts ByCallback r (trace w)) ∧
    handler_puts_ok (heap w !! r) (count_puts ByHandler r (trace w)).

(** [keeps I m]: running [m] from a state whose world satisfies [I] ends,
    normally or by an exception, in a state whose world satisfies [I]. *)
Definition keeps (I : World → Prop) {A} (m : M A) : Prop :=
  ∀ st, I (world st) → I (world (m st).2).

(** ** The POST handler of the earliest revision

    [if (sessionId && transports[sessionId]) { transport = ... }
     else if (!sessionId && isInitializeRequest(body)) { ...; return; }
     else { ctx.status = 400; ctx.body = {...}; return; }
     await transport.handleRequest(ctx.req, ctx.res, ctx.request.body);]

    Its GET and DELETE handlers and its SIGINT loop are those of the later
    revisions ([get_mcp], [delete_mcp], [gracefulShutdown]). *)

Inductive RouteFirst := FirstReuse | FirstInitialize | FirstReject.

Definition post_route_first (ctx : Request) (w : World) : RouteFirst :=
  let sid := req_sessionId ctx in
  if truthy sid && bool_decide (is_Some (registry_get sid w)) then FirstReuse
  else if negb (truthy sid) && isInitializeRequest (req_body ctx)
  then FirstInitialize
  else FirstReject.

Definition post_try_first (ctx : Request) : M unit :=
  w ← getW;
  match post_route_first ctx w with
  | FirstReuse =>
    transport ← defined (registry_get (req_sessionId ctx) w);
    call_on (CallHandleRequest POST (Some (req_body ctx))) transport
  | FirstInitialize =>
    transport ← construct GenRandomUUID;
    call CallConnect transport;;
    call (CallHandleRequest POST (Some (req_body ctx))) transport
  | FirstReject =>
    set_status 400;;
    set_body bad_request
  end.

Definition post_mcp_first (ctx : Request) : M unit :=
  try_catch (post_try_first ctx) post_catch.

(** The worlds reached by the earliest revision serving requests. *)
Inductive served_first : World → Prop :=
| served_first_initial : served_first initial_world
| served_first_post ctx w :
    served_first w → served_first (serve (post_mcp_first ctx) w).2
| served_first_get ctx w :
    served_first w → served_first (serve (get_mcp ctx) w).2
| served_first_delete ctx w :
    served_first w → served_first (serve (delete_mcp ctx) w).2
| served_first_disconnect r w :
    served_first w → served_first (onclose r w)
| served_first_shutdown ks w :
    served_first w → served_first (gracefulShutdown ks w).

(** Every transport draws its id with [randomUUID]. *)
Definition all_random (w : World) : Prop :=
  ∀ r t, heap w !! r = Some t → sessionIdGenerator t = GenRandomUUID.

(** A transport's [sessionId], once assigned, stays. *)
Definition has_session_id (r : tref) (s : string) (w : World) : Prop :=
  transport_sessionId r w = Some s.

(** The transport at [r], if there is one, is not waiting for a random
    id: it has its id, or its generator is a constant. *)
Definition settled (r : tref) (w : World) : Prop :=
  ∀ t, heap w !! r = Some t →
       is_Some (sessionId t) ∨ ∃ s, sessionIdGenerator t = GenFixed s.

(** ** The CORS middleware

    [app.use(async (ctx, next) => { ctx.set(...) x 7;
       if (ctx.method === 'OPTIONS') { ctx.status = 200; return; }
       await next(); })] *)

Definition cors_headers : list (string * string) :=
  [("Access-Control-Allow-Origin", "*");
   ("Access-Control-Allow-Methods", "GET, POST, DELETE, OPTIONS");
   ("Access-Control-Allow-Headers",
    "Content-Type, Accept, mcp-session-id, last-event-id");
   ("Connection", "keep-alive");
   ("Cache-Control", "no-cache");
   ("X-Content-Type-Options", "nosniff");
   ("X-Frame-Options", "DENY")].

Definition cors_middleware (method : string) (next : M unit) : M unit :=
  ctx_set "Access-Control-Allow-Origin" "*";;
  ctx_set "Access-Control-Allow-Methods" "GET, POST, DELETE, OPTIONS";;
  ctx_set "Access-Control-Allow-Headers"
    "Content-Type, Accept, mcp-session-id, last-event-id";;
  ctx_set "Connection" "keep-alive";;
  ctx_set "Cache-Control" "no-cache";;
  ctx_set "X-Content-Type-Options" "nosniff";;
  ctx_set "X-Frame-Options" "DENY";;
  if String.eqb method "OPTIONS" then set_status 200 else next.

(** [requestLogger]: [next().then(log).catch(err => { log; throw err; })].
    Log lines are not part of the world; what is left is that a failure
    of [next] is passed on. *)
Definition requestLogger (next : M unit) : M unit :=
  try_catch next throw.

(** The context with the headers [hs] set before anything else. *)
Definition with_headers (hs : list (string * string)) (k : Koa) : Koa :=
  {| ctx_status := ctx_status k; ctx_body := ctx_body k;
     ctx_headers := hs ++ ctx_headers k; ctx_respond := ctx_respond k;
     res_headersSent := res_headersSent k |}.

Definition preset (hs : list (string * string)) (st : St) : St :=
  {| world := world st; koa := with_headers hs (koa st) |}.

(** [oblivious m]: what [m] does is the same whatever headers were set
    before it ran; it only adds headers after them. *)
Definition oblivious {A} (m : M A) : Prop :=
  ∀ hs st, m (preset hs st) = ((m st).1, preset hs (m st).2).

End Server.

(** ** The tools registered on the MCP server *)

(** What a notification carries.  The two greeting tools send fixed
    texts around the name; the stream tool sends
    [`Periodic notification #${counter} at ${timestamp}`], of which the
    counter is kept and the timestamp is not modelled. *)
Inductive NoteData :=
  | NoteText (s : string)
  | NotePeriodic (counter : Z).

(** What a tool run does, in order: log lines, calls of
    [sendNotification] (which resolved or rejected) and sleeps. *)
Inductive ToolEvent :=
  | ToolLogged (level message : string)
  | ToolSent (level : string) (data : NoteData)
  | ToolSendFailed (level : string) (data : NoteData)
  | ToolSlept (ms : Q).

Definition ToolTrace := list ToolEvent.

Definition is_attempt (e : ToolEvent) : bool :=
  match e with
  | ToolSent _ _ | ToolSendFailed _ _ => true
  | _ => false
  end.

(** The notifications handed to [sendNotification], delivered or not. *)
Definition attempted (tr : ToolTrace) : list NoteData :=
  omap (λ e, match e with
             | ToolSent _ d | ToolSendFailed _ d => Some d
             | _ => None
             end) tr.

Definition delivered (tr : ToolTrace) : list NoteData :=
  omap (λ e, match e with ToolSent _ d => Some d | _ => None end) tr.

Definition slept (tr : ToolTrace) : list Q :=
  omap (λ e, match e with ToolSlept ms => Some ms | _ => None end) tr.

Definition logged (tr : ToolTrace) : list (string * string) :=
  omap (λ e, match e with ToolLogged l m => Some (l, m) | _ => None end) tr.

(** [CallToolResult] with one text item. *)
Record CallToolResult := text_result { result_text : string }.

Inductive ToolRes (A : Type) :=
  | ToolRet (a : A)
  | ToolRaise.
Arguments ToolRet {A} a.
Arguments ToolRaise {A}.

(** What the tools take from outside.  [sendNotification] belongs to the
    SDK: [send_resolves n] says whether its call number [n] (counted from
    0 over the tool run) resolves.  [number_to_string] is the rendering
    of a number inside a template string. *)
Class ToolEnv := {
  send_resolves : nat → bool;
  number_to_string : Q → string;
}.

Section Tools.

Context {env : ToolEnv}.

Definition tool_log (level message : string) (tr : ToolTrace) : ToolTrace :=
  tr ++ [ToolLogged level message].

Definition sleep (ms : Q) (tr : ToolTrace) : ToolTrace :=
  tr ++ [ToolSlept ms].

Definition sendNotification (level : string) (data : NoteData)
    (tr : ToolTrace) : ToolRes unit * ToolTrace :=
  if send_resolves (length (attempted tr))
  then (ToolRet (), tr ++ [ToolSent level data])
  else (ToolRaise, tr ++ [ToolSendFailed level data]).

(** [greet] *)
Definition greet (name : string) (tr : ToolTrace)
    : ToolRes CallToolResult * ToolTrace :=
  (ToolRet (text_result ("Hello, " ++ name ++ "!")),
   tool_log "info" "Tool called: greet" tr).

(** [multi-greet]: three awaited sends with a second of sleep between
    them; no [try] around them. *)
Definition multi_greet (name : string) (tr : ToolTrace)
    : ToolRes CallToolResult * ToolTrace :=
  let tr := tool_log "info" "Tool called: multi-greet" tr in
  match sendNotification "debug"
          (NoteText ("Starting multi-greet for " ++ name)) tr with
  | (ToolRaise, tr) => (ToolRaise, tr)
  | (ToolRet _, tr) =>
    let tr := sleep 1000 tr in
    match sendNotification "info"
            (NoteText ("Sending first greeting to " ++ name)) tr with
    | (ToolRaise, tr) => (ToolRaise, tr)
    | (ToolRet _, tr) =>
      let tr := sleep 1000 tr in
      match sendNotification "info"
              (NoteText ("Sending second greeting to " ++ name)) tr with
      | (ToolRaise, tr) => (ToolRaise, tr)
      | (ToolRet _, tr) =>
        (ToolRet (text_result ("Good morning, " ++ name ++ "!")), tr)
      end
    end
  end.

(** [start-notification-stream].  [count] and [interval] are JSON
    numbers, that is, rationals.  [counter] is a JavaScript number that
    starts at 0 and is only incremented: it is an exact integer up to
    2^53, where [counter++] stops changing it (2^53 + 1 rounds back to
    2^53). *)
Definition max_exact : Z := 2 ^ 53.

Definition increment (counter : Z) : Z :=
  if (counter <? max_exact)%Z then (counter + 1)%Z else counter.

(** [count === 0 || counter < count] *)
Definition stream_continues (count : Q) (counter : Z) : bool :=
  Qeq_bool count 0 || negb (Qle_bool count (inject_Z counter)).

(** One turn of the loop body: the send is inside [try], its failure is
    logged and the turn goes on to the sleep. *)
Definition stream_turn (interval : Q) (counter : Z) (tr : ToolTrace)
    : ToolTrace :=
  let tr :=
    match sendNotification "info" (NotePeriodic counter) tr with
    | (ToolRet _, tr) => tr
    | (ToolRaise, tr) => tool_log "error" "Error sending notification" tr
    end in
  sleep interval tr.

(** The [while] loop; [None] when [fuel] turns were not enough to leave
    it. *)
Fixpoint stream_loop (fuel : nat) (interval count : Q) (counter : Z)
    (tr : ToolTrace) : option ToolTrace :=
  if stream_continues count counter then
    match fuel with
    | O => None
    | S fuel =>
      let counter := increment counter in
      stream_loop fuel interval count counter
        (stream_turn interval counter tr)
    end
  else Some tr.

Definition start_notification_stream (fuel : nat) (interval count : Q)
    (tr : ToolTrace) : option (ToolRes CallToolResult * ToolTrace) :=
  tr' ← stream_loop fuel interval count 0 tr;
  Some (ToolRet (text_result
          ("Started sending periodic notifications every " ++
           number_to_string interval ++ "ms")), tr').

End Tools.

(** ** Sample instances of the parameters

    A two-message body type and two SDK behaviours, used to run the
    handlers on concrete requests.  [sample_lib] follows the happy path of
    the transport library: an initialize POST makes the engine assign the
    id, a DELETE and a [close()] make the transport signal closure.
    [close_fails_lib] differs in [close()], which raises before the
    transport signals anything. *)

Inductive SampleBody := Initialize | ToolCall.

Definition sample_isInitializeRequest (b : SampleBody) : bool :=
  match b with
  | Initialize => true
  | ToolCall => false
  end.

Definition sample_randomUUID (n : nat) : string :=
  match n with
  | 0 => "uuid-0"
  | 1 => "uuid-1"
  | _ => "uuid-n"
  end.

Definition sample_lib (c : LibCall SampleBody) (r : tref) (w : World)
    : LibRun :=
  match c with
  | CallConnect =>
    {| lr_steps := []; lr_headersSent := false; lr_raises := false |}
  | CallHandleRequest POST (Some Initialize) =>
    {| lr_steps := [AssignSession]; lr_headersSent := true;
       lr_raises := false |}
  | CallHandleRequest DELETE _ =>
    {| lr_steps := [SignalClose]; lr_headersSent := true;
       lr_raises := false |}
  | CallHandleRequest _ _ =>
    {| lr_steps := []; lr_headersSent := true; lr_raises := false |}
  | CallClose =>
    {| lr_steps := [SignalClose]; lr_headersSent := false;
       lr_raises := false |}
  end.


Definition sample_sdk : Sdk :=
  {| Body := SampleBody; isInitializeRequest := sample_isInitializeRequest;
     randomUUID := sample_randomUUID; lib := sample_lib |}.


(** Requests and worlds built from them. *)

Definition sample_request (token : option string) (b : SampleBody)
    : @Request sample_sdk :=
  @mkRequest sample_sdk token b.


(** After an initialize POST without a token: one session, ["uuid-0"]. *)
Definition one_session : World :=
  (serve (post_mcp RevLogger (sample_request None Initialize))
         initial_world).2.

(** Then a POST that brings its own id ["abc"] with an initialize body. *)
Definition two_sessions : World :=
  (serve (post_mcp RevLogger (sample_request (Some "abc") Initialize))
         one_session).2.

(** The third-branch insertion point of a POST with token ["abc"]. *)
Definition just_inserted : World :=
  world (post_case3_create (sample_request (Some "abc") ToolCall)
                           (start one_session)).2.

(** [one_session] after its transport has signalled closure. *)
Definition session_closed : World := onclose 0 one_session.


(** The registration rule in the words of the specification: a session
    is stored exactly once, by its initialization callback, and never by
    the handler directly. *)
Definition stored_once_by_callback_only (w : World) (r : tref) : Prop :=
  count_puts ByCallback r (trace w) = 1 ∧ count_puts ByHandler r (trace w) = 0.

(** Two SDKs that fail: [server.connect] raises, and [handleRequest]
    raises before anything is written. *)
Definition connect_fails_lib (c : LibCall SampleBody) (r : tref) (w : World)
    : LibRun :=
  match c with
  | CallConnect =>
    {| lr_steps := []; lr_headersSent := false; lr_raises := true |}
  | _ => sample_lib c r w
  end.

Definition handle_fails_lib (c : LibCall SampleBody) (r : tref) (w : World)
    : LibRun :=
  match c with
  | CallHandleRequest _ _ =>
    {| lr_steps := []; lr_headersSent := false; lr_raises := true |}
  | _ => sample_lib c r w
  end.

Definition connect_fails_sdk : Sdk :=
  {| Body := SampleBody; isInitializeRequest := sample_isInitializeRequest;
     randomUUID := sample_randomUUID; lib := connect_fails_lib |}.

Definition handle_fails_sdk : Sdk :=
  {| Body := SampleBody; isInitializeRequest := sample_isInitializeRequest;
     randomUUID := sample_randomUUID; lib := handle_fails_lib |}.

(** One session, opened through the earliest revision's POST handler. *)
Definition first_session : World :=
  (serve (post_mcp_first (sample_request None Initialize))
         initial_world).2.

(** A tool environment whose second [sendNotification] is rejected;
    numbers are rendered by their integral part. *)
Definition sample_tool_env : ToolEnv :=
  {| send_resolves := λ n, negb (n =? 1);
     number_to_string := λ q, pretty (Qfloor q) |}.

Section Properties.
Context {sdk : Sdk}.

(** ** Basic facts about the world operations *)

(** [onclose] either leaves the world as it is or deletes the key that is
    the transport's own [sessionId]. *)
Lemma onclose_cases r w :
  onclose r w = w ∨
  ∃ s, transport_sessionId r w = Some s ∧ is_Some (transports w !! s) ∧
       onclose r w = log (EvDelete ByCallback s) (set_transports (delete s) w).
Proof.
  unfold onclose.
  destruct (transport_sessionId r w) as [[|a s]|] eqn:Hs;
    [by left| |by left].
  case_bool_decide as Hin; [|by left].
  right. eexists. split; [done|]. split; done.
Qed.

Lemma heap_onclose r w : heap (onclose r w) = heap w.
Proof.
  destruct (onclose_cases r w) as [->|(s & _ & _ & ->)]; reflexivity.
Qed.

Lemma uuids_onclose r w : uuids (onclose r w) = uuids w.
Proof.
  destruct (onclose_cases r w) as [->|(s & _ & _ & ->)]; reflexivity.
Qed.

Lemma transports_onclose_subseteq r w : transports (onclose r w) ⊆ transports w.
Proof.
  destruct (onclose_cases r w) as [->|(s & _ & _ & ->)]; [done|].
  simpl. apply delete_subseteq.
Qed.

(** The two ways [assign_session] changes the world: nothing, or the
    transport gets the id [sid] its generator yields and, when [sid] is
    truthy, the callback stores the transport under [sid]. *)
Lemma assign_session_cases r w :
  assign_session r w = w ∨
  ∃ t sid w1,
    heap w !! r = Some t ∧ sessionId t = None ∧
    ((sessionIdGenerator t = GenRandomUUID ∧ sid = randomUUID (uuids w) ∧
      w1 = draw_uuid w) ∨
     (sessionIdGenerator t = GenFixed sid ∧ w1 = w)) ∧
    let w2 := set_heap <[r := {| sessionIdGenerator := sessionIdGenerator t;
                                 sessionId := Some sid |}]> w1 in
    assign_session r w =
      if truthy (Some sid) then onsessioninitialized r sid w2 else w2.
Proof.
  unfold assign_session.
  destruct (heap w !! r) as [t|] eqn:Ht; [|by left].
  destruct (sessionId t) eqn:Hs; [by left|].
  right. destruct (sessionIdGenerator t) as [|s] eqn:Hg; cbv zeta beta iota.
  - exists t, (randomUUID (uuids w)), (draw_uuid w). rewrite Hg. naive_solver.
  - exists t, s, w. rewrite Hg. naive_solver.
Qed.

Lemma length_heap_assign_session r w :
  length (heap (assign_session r w)) = length (heap w).
Proof.
  destruct (assign_session_cases r w)
    as [->|(t & sid & w1 & _ & _ & Hw1 & ->)]; [done|].
  assert (heap w1 = heap w) as Hh by (destruct Hw1 as [(_&_&->)|[_ ->]]; done).
  destruct (truthy (Some sid)); simpl; by rewrite length_insert, Hh.
Qed.

Lemma length_heap_lib_step r w s :
  length (heap (lib_step r w s)) = length (heap w).
Proof.
  destruct s; simpl; [apply length_heap_assign_session|by rewrite heap_onclose].
Qed.

Lemma length_heap_steps r steps w :
  length (heap (foldl (lib_step r) w steps)) = length (heap w).
Proof.
  revert w. induction steps as [|s steps IH]; intros w; simpl; [done|].
  by rewrite IH, length_heap_lib_step.
Qed.

Lemma length_heap_lib_effect c r w :
  length (heap (lib_effect c r w)) = length (heap w).
Proof. unfold lib_effect. by rewrite length_heap_steps. Qed.

(** ** A transport stays the session it is *)

Lemma bound_assign_session r' w r k :
  bound w r k → bound (assign_session r' w) r k.
Proof.
  intros (t & Ht & Hb).
  destruct (assign_session_cases r' w)
    as [->|(t' & sid & w1 & Ht' & Hnone & Hw1 & ->)]; [by exists t|].
  assert (heap w1 = heap w) as Hh by (destruct Hw1 as [(_&_&->)|[_ ->]]; done).
  assert (bound (set_heap <[r' := {| sessionIdGenerator := sessionIdGenerator t';
                                     sessionId := Some sid |}]> w1) r k) as Hb'.
  { unfold bound; simpl. rewrite Hh.
    destruct (decide (r = r')) as [->|Hne].
    - rewrite list_lookup_insert_eq by (by eapply lookup_lt_Some).
      eexists; split; [done|]. left; simpl.
      assert (t' = t) as -> by congruence.
      destruct Hb as [Hb|[_ Hg]]; [congruence|].
      destruct Hw1 as [(Hg' & _)|[Hg' _]]; congruence.
    - rewrite list_lookup_insert_ne by done. by exists t. }
  destruct (truthy (Some sid)); [|done].
  destruct Hb' as (t2 & ? & ?). by exists t2.
Qed.

Lemma bound_onclose r' w r k : bound w r k → bound (onclose r' w) r k.
Proof. unfold bound. by rewrite heap_onclose. Qed.

Lemma bound_lib_step r' s w r k : bound w r k → bound (lib_step r' w s) r k.
Proof. destruct s; [apply bound_assign_session|apply bound_onclose]. Qed.

Lemma bound_steps r' steps w r k :
  bound w r k → bound (foldl (lib_step r') w steps) r k.
Proof.
  revert w. induction steps as [|s steps IH]; intros w Hb; simpl; [done|].
  by apply IH, bound_lib_step.
Qed.

Lemma bound_lib_effect c r' w r k : bound w r k → bound (lib_effect c r' w) r k.
Proof. intros Hb. unfold lib_effect. by apply bound_steps. Qed.

Lemma bound_alloc g w r k : bound w r k → bound (alloc g w) r k.
Proof.
  intros (t & Ht & Hb). exists t. split; [|done].
  simpl. by apply lookup_app_l_Some.
Qed.

Lemma has_generator_assign_session r' w r g :
  has_generator w r g → has_generator (assign_session r' w) r g.
Proof.
  intros (t & Ht & Hg).
  destruct (assign_session_cases r' w)
    as [->|(t' & sid & w1 & Ht' & Hnone & Hw1 & ->)]; [by exists t|].
  assert (heap w1 = heap w) as Hh by (destruct Hw1 as [(_&_&->)|[_ ->]]; done).
  assert (has_generator
            (set_heap <[r' := {| sessionIdGenerator := sessionIdGenerator t';
                                 sessionId := Some sid |}]> w1) r g) as Hb'.
  { unfold has_generator; simpl. rewrite Hh.
    destruct (decide (r = r')) as [->|Hne].
    - rewrite list_lookup_insert_eq by (by eapply lookup_lt_Some).
      eexists; split; [done|]. simpl. congruence.
    - rewrite list_lookup_insert_ne by done. by exists t. }
  destruct (truthy (Some sid)); [|done].
  destruct Hb' as (t2 & ? & ?). by exists t2.
Qed.

Lemma has_generator_steps r' steps w r g :
  has_generator w r g → has_generator (foldl (lib_step r') w steps) r g.
Proof.
  revert w. induction steps as [|s steps IH]; intros w Hb; simpl; [done|].
  apply IH. destruct s; simpl; [by apply has_generator_assign_session|].
  unfold has_generator. by rewrite heap_onclose.
Qed.

Lemma has_generator_lib_effect c r' w r g :
  has_generator w r g → has_generator (lib_effect c r' w) r g.
Proof. intros Hb. unfold lib_effect. by apply has_generator_steps. Qed.

Lemma has_generator_alloc_new g w :
  has_generator (alloc g w) (length (heap w)) g.
Proof.
  exists {| sessionIdGenerator := g; sessionId := None |}. split; [|done].
  simpl. rewrite lookup_app_r by done. by rewrite Nat.sub_diag.
Qed.

(** ** The invariants are kept by every write to the registry *)

Lemma registry_wf_initial : registry_wf initial_world.
Proof. split; intros k r; simpl; by rewrite lookup_empty. Qed.

Lemma registry_wf_insert o k r w :
  registry_wf w → bound w r k → truthy (Some k) = true →
  registry_wf (log (EvPut o k r) (set_transports <[k := r]> w)).
Proof.
  intros [Hc Ht] Hb Hk. split; intros k' r'; simpl;
    rewrite lookup_insert; case_decide; intros ?; simplify_eq; eauto.
Qed.

Lemma registry_wf_delete o k w :
  registry_wf w →
  registry_wf (log (EvDelete o k) (set_transports (delete k) w)).
Proof.
  intros [Hc Ht]. split; intros k' r'; simpl;
    rewrite lookup_delete; case_decide; intros ?; simplify_eq; eauto.
Qed.

Lemma registry_wf_onclose r w : registry_wf w → registry_wf (onclose r w).
Proof.
  intros Hwf. destruct (onclose_cases r w) as [->|(s & _ & _ & ->)]; [done|].
  by apply registry_wf_delete.
Qed.

Lemma registry_wf_assign_session r w :
  registry_wf w → registry_wf (assign_session r w).
Proof.
  intros Hwf.
  destruct (assign_session_cases r w)
    as [Heq|(t & sid & w1 & Ht & Hnone & Hw1 & Heq)]; [by rewrite Heq|].
  assert (transports w1 = transports w ∧ heap w1 = heap w) as [Htr Hh]
    by (destruct Hw1 as [(_&_&->)|[_ ->]]; done).
  set (t' := {| sessionIdGenerator := sessionIdGenerator t;
                sessionId := Some sid |}) in *.
  assert (registry_wf (set_heap <[r := t']> w1)) as Hwf2.
  { destruct Hwf as [Hc Hk]. split; intros k r0; simpl; rewrite Htr; [|by eauto].
    intros Hin. specialize (Hc _ _ Hin). destruct Hc as (t0 & Ht0 & Hb).
    unfold bound; simpl. rewrite Hh.
    destruct (decide (r0 = r)) as [->|Hne].
    - rewrite list_lookup_insert_eq by (by eapply lookup_lt_Some).
      exists t'. split; [done|]. left; simpl.
      assert (t0 = t) as -> by congruence.
      destruct Hb as [Hb|[_ Hg]]; [congruence|].
      destruct Hw1 as [(Hg' & _)|[Hg' _]]; congruence.
    - rewrite list_lookup_insert_ne by done. by exists t0. }
  rewrite Heq. cbv zeta.
  destruct (truthy (Some sid)) eqn:Htruthy; [|done].
  apply registry_wf_insert; [done| |done].
  exists t'. split; [|by left].
  simpl. rewrite Hh. apply list_lookup_insert_eq. by eapply lookup_lt_Some.
Qed.

Lemma registry_wf_log e w : registry_wf w → registry_wf (log e w).
Proof. intros [Hc Hk]. split; intros k r; simpl; eauto. Qed.

Lemma registry_wf_steps r steps w :
  registry_wf w → registry_wf (foldl (lib_step r) w steps).
Proof.
  revert w. induction steps as [|s steps IH]; intros w Hwf; simpl; [done|].
  apply IH. destruct s; simpl;
    [by apply registry_wf_assign_session|by apply registry_wf_onclose].
Qed.

Lemma registry_wf_lib_effect c r w :
  registry_wf w → registry_wf (lib_effect c r w).
Proof. intros Hwf. by apply registry_wf_steps, registry_wf_log. Qed.

Lemma registry_wf_alloc g w : registry_wf w → registry_wf (alloc g w).
Proof.
  intros [Hc Hk]. split; intros k r Hin; [|by eauto].
  apply bound_alloc. by apply Hc.
Qed.

(** ** Invariants of handler bodies *)

Section Keeps.
Variable I : World → Prop.

Lemma keeps_ret {A} (a : A) : keeps I (mret a).
Proof. by intros st. Qed.

Lemma keeps_throw {A} : keeps I (@throw A).
Proof. by intros st. Qed.

Lemma keeps_bind {A B} (m : M A) (f : A → M B) :
  keeps I m → (∀ a, keeps I (f a)) → keeps I (m ≫= f).
Proof.
  intros Hm Hf st HI. specialize (Hm st HI).
  unfold mbind, M_bind. destruct (m st) as [[a|] st']; simpl in *; [|done].
  by apply Hf.
Qed.

Lemma keeps_getW_bind {B} (f : World → M B) :
  (∀ st, I (world st) → I (world (f (world st) st).2)) →
  keeps I (getW ≫= f).
Proof. intros Hf st HI. by apply Hf. Qed.

Lemma keeps_try_catch (m handler : M unit) :
  keeps I m → keeps I handler → keeps I (try_catch m handler).
Proof.
  intros Hm Hh st HI. specialize (Hm st HI).
  unfold try_catch. destruct (m st) as [[a|] st']; simpl in *; [done|].
  by apply Hh.
Qed.

Lemma keeps_modifyK f : keeps I (modifyK f).
Proof. by intros st. Qed.

Lemma keeps_headersSent : keeps I headersSent.
Proof. by intros st. Qed.

Lemma keeps_defined {A} (o : option A) : keeps I (defined o).
Proof. destruct o; by intros st. Qed.

Lemma keeps_call c r :
  (∀ w, I w → I (lib_effect c r w)) → keeps I (call c r).
Proof.
  intros Hc st HI. unfold call. destruct (lr_raises _); simpl; by apply Hc.
Qed.

Lemma keeps_construct g :
  (∀ w, I w → I (alloc g w)) → keeps I (construct g).
Proof. intros Hc st HI. by apply Hc. Qed.

End Keeps.

Ltac keeps_step :=
  first
    [ apply keeps_ret | apply keeps_throw | apply keeps_modifyK
    | apply keeps_headersSent | apply keeps_defined
    | apply keeps_bind; [|intros ?]
    | apply keeps_try_catch
    | match goal with
      | |- keeps _ (match ?x with _ => _ end) => destruct x
      end ].

Ltac unfold_M :=
  unfold serve, start, post_mcp, post_try, post_catch, post_tail,
    post_case3_create, get_mcp, delete_mcp, stream_try, stream_catch,
    try_catch, call_on, call, construct, put_direct, defined, throw, getW,
    modifyW,
    modifyK, headersSent, set_status, set_body, ctx_set, set_respond,
    mbind, M_bind, mret, M_ret in *.

(** ** Auxiliary facts about the third branch and the shutdown loop *)

Lemma registry_get_own w sid r :
  transports w !! sid = Some r → registry_get (Some sid) w = Some (Stored r).
Proof. intros Hr. simpl. by rewrite Hr. Qed.

Lemma registry_get_Stored w sid r :
  registry_get (Some sid) w = Some (Stored r) → transports w !! sid = Some r.
Proof.
  simpl. destruct (transports w !! sid); [by intros [= ->]|].
  by destruct (inherited sid).
Qed.

Lemma registry_get_undefined w sid :
  registry_get (Some sid) w = None ↔
  transports w !! sid = None ∧ inherited sid = false.
Proof.
  simpl. destruct (transports w !! sid); [by split; [|intros []]|].
  destruct (inherited sid); by split; [|intros []].
Qed.

Lemma registry_get_Inherited w sid :
  registry_get (Some sid) w = Some Inherited ↔
  transports w !! sid = None ∧ inherited sid = true.
Proof.
  simpl. destruct (transports w !! sid); [by split; [|intros []]|].
  destruct (inherited sid); by split; [|intros []].
Qed.

Lemma post_route_Case3 ctx w :
  post_route ctx w = Case3 →
  ∃ sid, req_sessionId ctx = Some sid ∧ truthy (Some sid) = true ∧
         transports w !! sid = None.
Proof.
  unfold post_route. destruct (req_sessionId ctx) as [sid|] eqn:Hs.
  - destruct (truthy (Some sid)) eqn:Ht; simpl.
    + destruct (registry_get (Some sid) w) eqn:Hg.
      * rewrite bool_decide_eq_true_2 by done. done.
      * intros _. exists sid. split; [done|]. split; [done|].
        by apply registry_get_undefined in Hg as [? _].
    + destruct (isInitializeRequest (req_body ctx)); done.
  - simpl. destruct (isInitializeRequest (req_body ctx)); done.
Qed.

Lemma post_route_Case3_undefined ctx w :
  post_route ctx w = Case3 →
  ∃ sid, req_sessionId ctx = Some sid ∧ truthy (Some sid) = true ∧
         registry_get (Some sid) w = None.
Proof.
  unfold post_route. destruct (req_sessionId ctx) as [sid|] eqn:Hs.
  - destruct (truthy (Some sid)) eqn:Ht; simpl.
    + destruct (registry_get (Some sid) w) eqn:Hg.
      * rewrite bool_decide_eq_true_2 by done. done.
      * intros _. by exists sid.
    + destruct (isInitializeRequest (req_body ctx)); done.
  - simpl. destruct (isInitializeRequest (req_body ctx)); done.
Qed.

Lemma bound_alloc_new sid w :
  bound (alloc (GenFixed sid) w) (length (heap w)) sid.
Proof.
  exists {| sessionIdGenerator := GenFixed sid; sessionId := None |}.
  split; [|by right].
  simpl. rewrite lookup_app_r by done. by rewrite Nat.sub_diag.
Qed.

Ltac as_keeps :=
  match goal with
  | H : ?I (world ?st) |- ?I (world (?m ?st).2) =>
    let Hk := fresh in
    assert (keeps I m) as Hk; [clear H|exact (Hk st H)]
  end.

Lemma registry_wf_shutdown_iteration w k :
  registry_wf w → registry_wf (shutdown_iteration w k).
Proof.
  intros Hwf. unfold shutdown_iteration.
  destruct (transports w !! k) as [r|]; [|done].
  destruct (lr_raises _).
  - by apply registry_wf_lib_effect.
  - by apply registry_wf_delete, registry_wf_lib_effect.
Qed.

(** ** The single operations keep the invariants *)

Lemma ids_from_generator_assign_session r0 w :
  ids_from_generator w → ids_from_generator (assign_session r0 w).
Proof.
  intros Hid.
  destruct (assign_session_cases r0 w)
    as [->|(t & sid & w1 & Ht & Hnone & Hw1 & ->)]; [done|].
  assert (heap w1 = heap w) as Hh by (destruct Hw1 as [(_&_&->)|[_ ->]]; done).
  assert (ids_from_generator
            (set_heap <[r0 := {| sessionIdGenerator := sessionIdGenerator t;
                                 sessionId := Some sid |}]> w1)) as Hid'.
  { intros r t0 s. simpl. rewrite Hh.
    destruct (decide (r = r0)) as [->|Hne].
    - rewrite list_lookup_insert_eq by (by eapply lookup_lt_Some).
      intros [= <-]. simpl. intros Hg. right.
      destruct Hw1 as [(Hg' & _)|[Hg' _]]; congruence.
    - rewrite list_lookup_insert_ne by done. apply Hid. }
  cbv zeta. by destruct (truthy (Some sid)).
Qed.

Lemma ids_from_generator_onclose r w :
  ids_from_generator w → ids_from_generator (onclose r w).
Proof. unfold ids_from_generator. by rewrite heap_onclose. Qed.

Lemma ids_from_generator_alloc g w :
  ids_from_generator w → ids_from_generator (alloc g w).
Proof.
  intros Hid r t s. simpl. intros Ht.
  apply lookup_app_Some in Ht as [Ht|[_ Ht]]; [by eapply Hid|].
  apply list_lookup_singleton_Some in Ht as [_ <-]. by left.
Qed.

Lemma has_generator_bound w r k :
  ids_from_generator w → has_generator w r (GenFixed k) → bound w r k.
Proof.
  intros Hid (t & Ht & Hg). exists t. split; [done|].
  destruct (Hid r t k Ht Hg); [by right|by left].
Qed.

Lemma reachable_invariants w :
  reachable w → registry_wf w ∧ ids_from_generator w.
Proof.
  induction 1 as [|e w _ [IH1 IH2]|g w _ [IH1 IH2]|r w _ [IH1 IH2]
                 |r w _ [IH1 IH2]|sid r w _ [IH1 IH2] Ht Hg|k w _ [IH1 IH2]].
  - split; [apply registry_wf_initial|]. intros r t s. simpl.
    by rewrite lookup_nil.
  - split; [by apply registry_wf_log|done].
  - split; [by apply registry_wf_alloc|by apply ids_from_generator_alloc].
  - split; [by apply registry_wf_assign_session
           |by apply ids_from_generator_assign_session].
  - split; [by apply registry_wf_onclose|by apply ids_from_generator_onclose].
  - split; [|done]. apply registry_wf_insert; [done| |done].
    by apply has_generator_bound.
  - split; [by apply registry_wf_delete|done].
Qed.

Lemma reachable_registry_wf w : reachable w → registry_wf w.
Proof. intros Hreach. by apply reachable_invariants. Qed.

(** The handlers are made of these operations. *)

Lemma reachable_steps r steps w :
  reachable w → reachable (foldl (lib_step r) w steps).
Proof.
  revert w. induction steps as [|s steps IH]; intros w Hreach; simpl; [done|].
  apply IH. destruct s; simpl;
    [by apply reach_assign_session|by apply reach_onclose].
Qed.

Lemma reachable_lib_effect c r w : reachable w → reachable (lib_effect c r w).
Proof. intros Hreach. by apply reachable_steps, reach_log. Qed.

Lemma keeps_reachable_call c r : keeps reachable (call c r).
Proof. apply keeps_call. intros w. apply reachable_lib_effect. Qed.

Lemma keeps_reachable_construct g : keeps reachable (construct g).
Proof. apply keeps_construct. intros w. apply reach_construct. Qed.

Lemma keeps_reachable_post_case3_create ctx :
  truthy (req_sessionId ctx) = true →
  keeps reachable (post_case3_create ctx).
Proof.
  intros Ht st Hreach. unfold_M.
  destruct (req_sessionId ctx) as [sid|]; [|by vm_compute in Ht].
  simpl. destruct (lr_raises _); simpl.
  - by apply reachable_lib_effect, reach_construct.
  - apply reach_put_case3; [|done|].
    + by apply reachable_lib_effect, reach_construct.
    + apply has_generator_lib_effect, has_generator_alloc_new.
Qed.

Lemma keeps_reachable_post_mcp rev ctx : keeps reachable (post_mcp rev ctx).
Proof.
  unfold post_mcp, post_catch, set_status, set_body.
  apply keeps_try_catch; [|by repeat keeps_step].
  unfold post_try. apply keeps_getW_bind. intros st Hreach.
  destruct (post_route ctx (world st)) eqn:Hroute.
  - as_keeps. unfold post_tail, call_on, set_respond.
    repeat first [apply keeps_reachable_call | keeps_step].
  - as_keeps. unfold ctx_set, set_respond.
    repeat first [apply keeps_reachable_call | apply keeps_reachable_construct
                 | apply keeps_getW_bind; intros; as_keeps | keeps_step].
  - apply post_route_Case3 in Hroute as (sid & Hsid & Ht & _).
    as_keeps. unfold post_tail, call_on, set_respond.
    keeps_step; [apply keeps_reachable_post_case3_create; by rewrite Hsid|].
    repeat first [apply keeps_reachable_call | keeps_step].
  - as_keeps. unfold set_status, set_body. by repeat keeps_step.
  - as_keeps. unfold set_status, set_body. by repeat keeps_step.
Qed.

Lemma keeps_reachable_stream m ctx message :
  keeps reachable (try_catch (stream_try m ctx) (stream_catch message)).
Proof.
  unfold stream_catch, stream_try, call_on, set_status, set_body.
  apply keeps_try_catch; [|by repeat keeps_step].
  apply keeps_getW_bind. intros st Hreach. as_keeps.
  repeat first [apply keeps_reachable_call | keeps_step].
Qed.

Lemma reachable_gracefulShutdown ks w :
  reachable w → reachable (gracefulShutdown ks w).
Proof.
  unfold gracefulShutdown. revert w.
  induction ks as [|k ks IH]; intros w Hreach; simpl; [done|].
  apply IH. unfold shutdown_iteration.
  destruct (transports w !! k) as [r|]; [|done].
  destruct (lr_raises _); [by apply reachable_lib_effect|].
  by apply reach_delete, reachable_lib_effect.
Qed.

Lemma served_reachable w : served w → reachable w.
Proof.
  induction 1 as [|rev ctx w _ IH|ctx w _ IH Hroute|ctx w _ IH|ctx w _ IH
                 |r w _ IH|ks w _ IH].
  - apply reach_initial.
  - by apply (keeps_reachable_post_mcp rev ctx (start w)).
  - apply post_route_Case3 in Hroute as (sid & Hsid & Ht & _).
    apply (keeps_reachable_post_case3_create ctx); [by rewrite Hsid|done].
  - by apply (keeps_reachable_stream GET ctx _ (start w)).
  - by apply (keeps_reachable_stream DELETE ctx _ (start w)).
  - by apply reach_onclose.
  - by apply reachable_gracefulShutdown.
Qed.


(** ** The five branches of the POST dispatch *)

Lemma post_route_Case1 ctx w sid r :
  req_sessionId ctx = Some sid → truthy (Some sid) = true →
  transports w !! sid = Some r → post_route ctx w = Case1.
Proof.
  intros Hs Ht Hr. unfold post_route. rewrite Hs, Ht.
  rewrite (registry_get_own w sid r Hr). by rewrite bool_decide_eq_true_2.
Qed.

(** A name inherited from [Object.prototype] is found by the first
    test, like a registered token. *)
Lemma post_route_Case1_inherited ctx w sid :
  req_sessionId ctx = Some sid → truthy (Some sid) = true →
  inherited sid = true → post_route ctx w = Case1.
Proof.
  intros Hs Ht Hi. unfold post_route. rewrite Hs, Ht.
  rewrite bool_decide_eq_true_2; [done|]. simpl.
  destruct (transports w !! sid); [done|]. by rewrite Hi.
Qed.

Lemma post_route_Case4 ctx w :
  truthy (req_sessionId ctx) = false →
  isInitializeRequest (req_body ctx) = false → post_route ctx w = Case4.
Proof. intros Ht Hi. unfold post_route. by rewrite Ht, Hi. Qed.

Lemma post_route_Case2 ctx w :
  truthy (req_sessionId ctx) = false →
  isInitializeRequest (req_body ctx) = true → post_route ctx w = Case2.
Proof. intros Ht Hi. unfold post_route. by rewrite Ht, Hi. Qed.

Lemma post_route_Case3_intro ctx w sid :
  req_sessionId ctx = Some sid → truthy (Some sid) = true →
  registry_get (Some sid) w = None → post_route ctx w = Case3.
Proof.
  intros Hs Ht Hr. unfold post_route. rewrite Hs, Ht, Hr.
  rewrite bool_decide_eq_false_2; [done|]. by intros [? ?].
Qed.

(** The fallback branch is dead code. *)
Lemma post_route_not_Case5 ctx w : post_route ctx w ≠ Case5.
Proof.
  unfold post_route.
  destruct (truthy _), (bool_decide _), (isInitializeRequest _); done.
Qed.

Lemma lib_effect_quiet c r w :
  lr_steps (lib c r w) = [] → lib_effect c r w = log (call_event c r) w.
Proof. intros H. unfold lib_effect. by rewrite H. Qed.

(** The [catch] blocks only write to the Koa context. *)
Lemma world_post_catch st : world (post_catch st).2 = world st.
Proof. unfold_M. by destruct (negb _). Qed.

Lemma world_stream_catch message st :
  world (stream_catch message st).2 = world st.
Proof. unfold_M. by destruct (negb _). Qed.

Lemma world_post_mcp rev ctx st :
  world (post_mcp rev ctx st).2 = world (post_try rev ctx st).2.
Proof.
  unfold post_mcp, try_catch.
  destruct (post_try rev ctx st) as [[[]|] st']; simpl; [done|].
  apply world_post_catch.
Qed.

Lemma world_stream m ctx message st :
  world (try_catch (stream_try m ctx) (stream_catch message) st).2 =
  world (stream_try m ctx st).2.
Proof.
  unfold try_catch.
  destruct (stream_try m ctx st) as [[[]|] st']; simpl; [done|].
  apply world_stream_catch.
Qed.

Lemma world_post_tail ctx r st :
  world (post_tail ctx (Stored r) st).2 =
  lib_effect (CallHandleRequest POST (Some (req_body ctx))) r (world st).
Proof. unfold_M. by destruct (lr_raises _). Qed.

(** Assigning the id of a registered transport stores it where it is. *)
Lemma transports_assign_session_registered r sid w :
  registry_wf w → transports w !! sid = Some r →
  transports (assign_session r w) = transports w.
Proof.
  intros [Hc _] Hr.
  destruct (assign_session_cases r w)
    as [->|(t & sid' & w1 & Ht & Hnone & Hw1 & ->)]; [done|].
  destruct (Hc _ _ Hr) as (t0 & Ht0 & Hb).
  assert (t0 = t) as -> by congruence.
  destruct Hb as [Hb|[_ Hg]]; [congruence|].
  destruct Hw1 as [(Hg' & _)|[Hg' ->]]; [congruence|].
  assert (sid' = sid) as -> by congruence.
  cbv zeta. destruct (truthy (Some sid)); simpl; [|done].
  by apply insert_id.
Qed.

Lemma transports_steps_registered r sid steps w :
  registry_wf w → transports w !! sid = Some r → SignalClose ∉ steps →
  transports (foldl (lib_step r) w steps) = transports w.
Proof.
  revert w. induction steps as [|s steps IH]; intros w Hwf Hr Hno; simpl;
    [done|].
  apply not_elem_of_cons in Hno as [Hs Hno]. destruct s; [|done]. simpl.
  pose proof (transports_assign_session_registered r sid w Hwf Hr) as Heq.
  rewrite IH; [done|by apply registry_wf_assign_session|by rewrite Heq|done].
Qed.

Lemma transports_lib_effect_registered c r sid w :
  registry_wf w → transports w !! sid = Some r →
  SignalClose ∉ lr_steps (lib c r w) →
  transports (lib_effect c r w) = transports w.
Proof.
  intros Hwf Hr Hno. unfold lib_effect.
  by rewrite (transports_steps_registered r sid _ (log (call_event c r) w))
    by (done || by apply registry_wf_log).
Qed.

(** ** POST with a registered token *)

(** C1. A POST request whose session token is a key of the registry of a
    reachable world takes the first branch; the world handed to the SDK is
    the world the request arrived in, the call is made on the transport
    stored under the token, no transport object is created, and the
    registry afterwards is the registry before unless the transport
    signals closure during the call. *)
Theorem post_hit_reuses_transport rev ctx w sid r :
  reachable w →
  req_sessionId ctx = Some sid →
  transports w !! sid = Some r →
  let handle := CallHandleRequest POST (Some (req_body ctx)) in
  let w' := (serve (post_mcp rev ctx) w).2 in
  post_route ctx w = Case1 ∧
  w' = lib_effect handle r w ∧
  length (heap w') = length (heap w) ∧
  (SignalClose ∉ lr_steps (lib handle r w) → transports w' = transports w).
Proof.
  intros Hreach Hs Hr handle w'.
  pose proof (reachable_registry_wf w Hreach) as Hwf.
  assert (truthy (Some sid) = true) as Ht by (by eapply Hwf).
  assert (post_route ctx w = Case1) as Hroute
    by (by eapply post_route_Case1).
  assert (w' = lib_effect handle r w) as Hw.
  { subst w'. unfold serve. simpl. rewrite world_post_mcp. unfold post_try.
    unfold mbind at 1, M_bind at 1, getW at 1. simpl. rewrite Hroute, Hs.
    rewrite (registry_get_own w sid r Hr).
    unfold mbind, M_bind, defined, mret, M_ret; simpl.
    apply world_post_tail. }
  split; [done|]. split; [done|]. rewrite Hw. split.
  - apply length_heap_lib_effect.
  - intros Hq. by eapply transports_lib_effect_registered.
Qed.

(** ** POST without a token and without an initialize body *)

(** C2. A POST request whose session header is absent (or empty) and whose
    body is not an initialize message takes the fourth branch: status
    400, the JSON-RPC error -32000 "Bad Request: No valid session ID
    provided" with a null id, and the world, hence the registry and the
    set of transports, is what it was. *)
Theorem post_no_token_not_initialize rev ctx w :
  truthy (req_sessionId ctx) = false →
  isInitializeRequest (req_body ctx) = false →
  post_route ctx w = Case4 ∧
  serve (post_mcp rev ctx) w =
    ({| ctx_status := 400;
        ctx_body :=
          BodyJsonRpcError "2.0" (-32000)
            "Bad Request: No valid session ID provided" None;
        ctx_headers := []; ctx_respond := true; res_headersSent := false |},
     w).
Proof.
  intros Ht Hi.
  assert (post_route ctx w = Case4) as Hroute by (by apply post_route_Case4).
  split; [done|]. unfold_M. simpl. by rewrite Hroute.
Qed.

(** ** POST with a token that is not registered *)

(** What an SDK call leaves in the trace: the call itself, then what the
    callbacks it fired did. *)
Lemma trace_lib_step_extends r w s :
  ∃ evs, trace (lib_step r w s) = trace w ++ evs.
Proof.
  destruct s; simpl.
  - destruct (assign_session_cases r w)
      as [->|(t & sid & w1 & _ & _ & Hw1 & ->)]; [exists []; by rewrite app_nil_r|].
    assert (trace w1 = trace w) as Ht
      by (destruct Hw1 as [(_&_&->)|[_ ->]]; done).
    destruct (truthy (Some sid)); simpl; rewrite Ht;
      [by eexists|exists []; by rewrite app_nil_r].
  - destruct (onclose_cases r w) as [->|(s & _ & _ & ->)];
      [exists []; by rewrite app_nil_r|by eexists].
Qed.

Lemma trace_steps_extends r steps w :
  ∃ evs, trace (foldl (lib_step r) w steps) = trace w ++ evs.
Proof.
  revert w. induction steps as [|s steps IH]; intros w; simpl.
  { exists []. by rewrite app_nil_r. }
  destruct (IH (lib_step r w s)) as (evs2 & ->).
  destruct (trace_lib_step_extends r w s) as (evs1 & ->).
  exists (evs1 ++ evs2). by rewrite app_assoc.
Qed.

Lemma trace_lib_effect_extends c r w :
  ∃ evs, trace (lib_effect c r w) = trace w ++ call_event c r :: evs.
Proof.
  unfold lib_effect.
  destruct (trace_steps_extends r (lr_steps (lib c r w))
              (log (call_event c r) w)) as (evs & ->).
  exists evs. simpl. by rewrite <- app_assoc.
Qed.

(** ** Tokens named like a member of [Object.prototype] *)

Lemma inherited_truthy sid : inherited sid = true → truthy (Some sid) = true.
Proof.
  unfold inherited. intros Hin%bool_decide_eq_true.
  unfold object_prototype_names in Hin.
  repeat (apply elem_of_cons in Hin as [->|Hin]; [reflexivity|]).
  by apply elem_of_nil in Hin.
Qed.

Lemma serve_post_inherited rev ctx w sid :
  req_sessionId ctx = Some sid → truthy (Some sid) = true →
  transports w !! sid = None → inherited sid = true →
  serve (post_mcp rev ctx) w =
    ({| ctx_status := 500; ctx_body := internal_error; ctx_headers := [];
        ctx_respond := true; res_headersSent := false |}, w).
Proof.
  intros Hs Ht Hr Hi.
  assert (post_route ctx w = Case1) as Hroute
    by (by eapply post_route_Case1_inherited).
  assert (registry_get (req_sessionId ctx) w = Some Inherited) as Hg
    by (rewrite Hs; by apply registry_get_Inherited).
  unfold_M. simpl. by rewrite Hroute, Hg.
Qed.

Lemma serve_stream_inherited m message ctx w sid :
  req_sessionId ctx = Some sid →
  transports w !! sid = None → inherited sid = true →
  serve (try_catch (stream_try m ctx) (stream_catch message)) w =
    ({| ctx_status := 500; ctx_body := BodyText message; ctx_headers := [];
        ctx_respond := true; res_headersSent := false |}, w).
Proof.
  intros Hs Hr Hi. pose proof (inherited_truthy sid Hi) as Ht.
  assert (registry_get (req_sessionId ctx) w = Some Inherited) as Hg
    by (rewrite Hs; by apply registry_get_Inherited).
  rewrite Hs in Hg. unfold_M. simpl. by rewrite Hs, Ht, Hg.
Qed.

(** ** POST with a token that is not registered *)

(** C3. A POST request with a non-empty session token under which no
    session is registered.

    When the read [transports[sessionId]] is [undefined], the request
    takes the third branch: one transport is created, at the next free
    address, whose generator is the constant function of the client's
    token; [server.connect] is called on it; when that returns, the
    transport is stored in the registry under the token, directly after
    the connect (the trace is: construction, the connect call, whatever
    callbacks the connect fired, the store); and only then is the request
    handed to it.

    When the token is the name of a member of [Object.prototype], the
    read finds that member: the request takes the first branch, the call
    of [handleRequest] on the member raises, and the client is answered
    500 with the JSON-RPC error -32603.  No transport is created and
    nothing is registered: the world is what it was. *)
Theorem post_miss_creates_session_with_client_id rev ctx w sid :
  req_sessionId ctx = Some sid →
  truthy (Some sid) = true →
  transports w !! sid = None →
  let r := length (heap w) in
  let connected := lib_effect CallConnect r (alloc (GenFixed sid) w) in
  let inserted :=
    log (EvPut ByHandler sid r) (set_transports <[sid := r]> connected) in
  (inherited sid = false →
   lr_raises (lib CallConnect r (alloc (GenFixed sid) w)) = false →
   post_route ctx w = Case3 ∧
   (post_case3_create ctx (start w)).1 = Ret r ∧
   world (post_case3_create ctx (start w)).2 = inserted ∧
   (∃ evs, trace inserted =
             trace w ++ [EvConstruct r (GenFixed sid); EvConnect r] ++ evs ++
             [EvPut ByHandler sid r]) ∧
   length (heap inserted) = S (length (heap w)) ∧
   (∃ t, heap inserted !! r = Some t ∧ sessionIdGenerator t = GenFixed sid ∧
         (sessionId t = None ∨ sessionId t = Some sid)) ∧
   transports inserted !! sid = Some r ∧
   (serve (post_mcp rev ctx) w).2 =
     lib_effect (CallHandleRequest POST (Some (req_body ctx))) r inserted) ∧
  (inherited sid = true →
   post_route ctx w = Case1 ∧
   serve (post_mcp rev ctx) w =
     ({| ctx_status := 500;
         ctx_body :=
           BodyJsonRpcError "2.0" (-32603) "Internal server error" None;
         ctx_headers := []; ctx_respond := true; res_headersSent := false |},
      w)).
Proof.
  intros Hs Ht Hr r connected inserted. split.
  2:{ intros Hi. split; [by eapply post_route_Case1_inherited|].
      by eapply serve_post_inherited. }
  intros Hi Hconn.
  assert (post_route ctx w = Case3) as Hroute.
  { eapply post_route_Case3_intro; [done..|]. by apply registry_get_undefined. }
  split; [done|].
  assert (post_case3_create ctx (start w) =
          (Ret r,
           {| world := inserted;
              koa := mark_headersSent
                (lr_headersSent
                   (lib CallConnect r (alloc (GenFixed sid) w))) fresh_koa |}))
    as Hcreate.
  { subst inserted connected r. unfold_M. rewrite Hs. simpl.
    by rewrite Hconn. }
  rewrite Hcreate. simpl.
  split; [done|]. split; [done|]. split.
  { destruct (trace_lib_effect_extends CallConnect r (alloc (GenFixed sid) w))
      as (evs & Hevs).
    exists evs. subst inserted connected. simpl. rewrite Hevs. simpl.
    by rewrite <- !app_assoc. }
  split.
  { subst inserted connected. simpl.
    rewrite length_heap_lib_effect. unfold alloc; simpl.
    rewrite length_app; simpl. lia. }
  split.
  { destruct (bound_lib_effect CallConnect r _ r sid (bound_alloc_new sid w))
      as (t & Hlook & Hb).
    destruct (has_generator_lib_effect CallConnect r _ r _
                (has_generator_alloc_new (GenFixed sid) w))
      as (t' & Hlook' & Hg).
    assert (t' = t) as -> by congruence.
    exists t. split; [done|]. split; [done|].
    destruct Hb as [?|[? _]]; eauto. }
  split; [subst inserted; simpl; by rewrite lookup_insert_eq|].
  unfold serve. simpl. rewrite world_post_mcp. unfold post_try.
  unfold mbind at 1, M_bind at 1, getW at 1. simpl. rewrite Hroute.
  unfold mbind at 1, M_bind at 1. rewrite Hcreate.
  apply world_post_tail.
Qed.

(** ** The close path *)

(** C7. The close callback can run any number of times: it is a total
    function of the world (it has no way to raise), running it a second
    time changes nothing, and when the transport's session id is not a
    key of the registry the first run changes nothing either.  The
    [delete transports[k]] of the shutdown loop likewise leaves a
    registry without [k] as it is. *)
Theorem close_path_idempotent r w :
  onclose r (onclose r w) = onclose r w ∧
  lib_step r (lib_step r w SignalClose) SignalClose = lib_step r w SignalClose ∧
  (∀ s, transport_sessionId r w = Some s → transports w !! s = None →
        onclose r w = w) ∧
  (∀ k, transports w !! k = None → set_transports (delete k) w = w).
Proof.
  assert (∀ s, transport_sessionId r w = Some s → transports w !! s = None →
               onclose r w = w) as Habsent.
  { intros s Hs Hnone. unfold onclose. rewrite Hs, Hnone.
    destruct s; [done|].
    by rewrite bool_decide_eq_false_2 by (by intros [? ?]). }
  assert (onclose r (onclose r w) = onclose r w) as Hidem.
  { destruct (onclose_cases r w) as [Heq|(s & Hs & _ & Heq)];
      [by rewrite !Heq|].
    rewrite Heq. unfold onclose at 1.
    replace (transport_sessionId r _) with (Some s) by done.
    destruct s; [done|]. simpl. rewrite lookup_delete_eq.
    by rewrite bool_decide_eq_false_2 by (by intros [? ?]). }
  split; [done|]. split; [done|]. split; [done|].
  intros k Hk. destruct w as [m h u t]; unfold set_transports; simpl in *.
  by rewrite delete_id.
Qed.

(** ** GET and DELETE *)

Lemma stream_try_reject m ctx st :
  registry_get (req_sessionId ctx) (world st) = None →
  stream_try m ctx st =
    (Ret (), {| world := world st;
                koa := {| ctx_status := 400;
                          ctx_body := invalid_session;
                          ctx_headers := ctx_headers (koa st);
                          ctx_respond := ctx_respond (koa st);
                          res_headersSent := res_headersSent (koa st) |} |}).
Proof.
  intros Hnone. unfold stream_try.
  unfold mbind at 1, M_bind at 1, getW at 1. simpl. rewrite Hnone.
  rewrite bool_decide_eq_false_2 by (by intros [? ?]).
  simpl. by rewrite orb_true_r.
Qed.

Lemma world_stream_try_hit m ctx st sid r :
  req_sessionId ctx = Some sid → truthy (Some sid) = true →
  transports (world st) !! sid = Some r →
  world (stream_try m ctx st).2 =
    lib_effect (CallHandleRequest m None) r (world st).
Proof.
  intros Hs Ht Hr. unfold stream_try.
  unfold mbind at 1, M_bind at 1, getW at 1. simpl. rewrite Hs, Ht. simpl.
  rewrite Hr. rewrite bool_decide_eq_true_2 by done. simpl.
  unfold_M. by destruct (lr_raises _).
Qed.

(** C8. A GET or DELETE request whose token is a key of the registry of
    a reachable world is handed to the transport stored under that key.
    A request whose session header is absent or empty, or for which the
    read [transports[sessionId]] is [undefined], is answered with status
    400 and the text "Invalid or missing session ID", and the world is
    untouched: nothing is handed to any transport.

    A token under which nothing is registered but which is the name of a
    member of [Object.prototype] is not rejected that way: the test
    [!transports[sessionId]] finds the member, the call of [handleRequest]
    on it raises, and the answer is status 500 with the text of the
    handler's [catch] block.  The world is untouched there too. *)
Theorem stream_requires_registered_session ctx w :
  (registry_get (req_sessionId ctx) w = None →
   serve (get_mcp ctx) w = (invalid_session_response, w) ∧
   serve (delete_mcp ctx) w = (invalid_session_response, w)) ∧
  (∀ sid r, reachable w → req_sessionId ctx = Some sid →
     transports w !! sid = Some r →
     (serve (get_mcp ctx) w).2 = lib_effect (CallHandleRequest GET None) r w ∧
     (serve (delete_mcp ctx) w).2 =
       lib_effect (CallHandleRequest DELETE None) r w) ∧
  (∀ sid, req_sessionId ctx = Some sid →
     transports w !! sid = None → inherited sid = true →
     serve (get_mcp ctx) w =
       ({| ctx_status := 500; ctx_body := BodyText "Internal server error";
           ctx_headers := []; ctx_respond := true;
           res_headersSent := false |}, w) ∧
     serve (delete_mcp ctx) w =
       ({| ctx_status := 500;
           ctx_body := BodyText "Error processing session termination";
           ctx_headers := []; ctx_respond := true;
           res_headersSent := false |}, w)).
Proof.
  split; [|split].
  - intros Hnone. unfold serve, get_mcp, delete_mcp, try_catch.
    rewrite !stream_try_reject by done. done.
  - intros sid r Hreach Hs Hr.
    assert (truthy (Some sid) = true) as Ht
      by (eapply (reachable_registry_wf w Hreach); done).
    unfold serve, get_mcp, delete_mcp; simpl. rewrite !world_stream.
    split; by eapply world_stream_try_hit.
  - intros sid Hs Hr Hi. unfold get_mcp, delete_mcp.
    split; by eapply serve_stream_inherited.
Qed.

(** ** Counting registry writes *)

Lemma count_puts_app o r evs1 evs2 :
  count_puts o r (evs1 ++ evs2) = count_puts o r evs1 + count_puts o r evs2.
Proof. induction evs1 as [|e evs1 IH]; simpl; [done|]. rewrite IH. lia. Qed.

Lemma count_puts_log o r e w :
  count_puts o r (trace (log e w)) =
  count_puts o r (trace w) + (if is_put o r e then 1 else 0).
Proof. simpl. rewrite count_puts_app. simpl. lia. Qed.

(** The callbacks never write as the handler. *)
Lemma handler_puts_onclose r' r w :
  count_puts ByHandler r (trace (onclose r' w)) =
  count_puts ByHandler r (trace w).
Proof.
  destruct (onclose_cases r' w) as [->|(s & _ & _ & ->)]; [done|].
  rewrite count_puts_log. simpl. lia.
Qed.

Lemma handler_puts_assign_session r' r w :
  count_puts ByHandler r (trace (assign_session r' w)) =
  count_puts ByHandler r (trace w).
Proof.
  destruct (assign_session_cases r' w)
    as [->|(t & sid & w1 & _ & _ & Hw1 & ->)]; [done|].
  assert (trace w1 = trace w) as Hh by (destruct Hw1 as [(_&_&->)|[_ ->]]; done).
  cbv zeta. destruct (truthy (Some sid)); simpl; rewrite Hh; [|done].
  rewrite count_puts_app. simpl. lia.
Qed.

Lemma handler_puts_steps r' steps r w :
  count_puts ByHandler r (trace (foldl (lib_step r') w steps)) =
  count_puts ByHandler r (trace w).
Proof.
  revert w. induction steps as [|s steps IH]; intros w; simpl; [done|].
  rewrite IH. destruct s; simpl;
    [apply handler_puts_assign_session|apply handler_puts_onclose].
Qed.

Lemma handler_puts_lib_effect c r' r w :
  count_puts ByHandler r (trace (lib_effect c r' w)) =
  count_puts ByHandler r (trace w).
Proof.
  unfold lib_effect. rewrite handler_puts_steps, count_puts_log.
  destruct c; simpl; lia.
Qed.

(** Without an [AssignSession] step the registry can only shrink. *)
Lemma transports_steps_subseteq r steps w :
  AssignSession ∉ steps →
  transports (foldl (lib_step r) w steps) ⊆ transports w.
Proof.
  revert w. induction steps as [|s steps IH]; intros w Hno; simpl; [done|].
  apply not_elem_of_cons in Hno as [Hs Hno].
  destruct s; [done|]. simpl.
  etrans; [by apply IH|]. apply transports_onclose_subseteq.
Qed.

Lemma transports_lib_effect_subseteq c r w :
  AssignSession ∉ lr_steps (lib c r w) →
  transports (lib_effect c r w) ⊆ transports w.
Proof.
  intros Hno. unfold lib_effect.
  by apply (transports_steps_subseteq r _ (log (call_event c r) w)).
Qed.

Lemma world_stream_try_cases m ctx st :
  world (stream_try m ctx st).2 = world st ∨
  ∃ r, world (stream_try m ctx st).2 =
         lib_effect (CallHandleRequest m None) r (world st).
Proof.
  unfold_M. simpl.
  destruct (negb _ || negb _); [by left|].
  destruct (registry_get _ _) as [[r|]|]; [|by left..].
  right. exists r. by destruct (lr_raises _).
Qed.

(** C10. The GET and DELETE handlers contain no write to the registry:
    after either of them, every transport has been stored by handler code
    exactly as often as before; and when the SDK call they delegate to
    assigns no session id, the keys of the registry afterwards are among
    the keys before. *)
Theorem stream_handlers_never_insert ctx w :
  let wg := (serve (get_mcp ctx) w).2 in
  let wd := (serve (delete_mcp ctx) w).2 in
  (∀ r, count_puts ByHandler r (trace wg) = count_puts ByHandler r (trace w)) ∧
  (∀ r, count_puts ByHandler r (trace wd) = count_puts ByHandler r (trace w)) ∧
  ((∀ r, AssignSession ∉ lr_steps (lib (CallHandleRequest GET None) r w)) →
   dom (transports wg) ⊆ dom (transports w)) ∧
  ((∀ r, AssignSession ∉ lr_steps (lib (CallHandleRequest DELETE None) r w)) →
   dom (transports wd) ⊆ dom (transports w)).
Proof.
  intros wg wd. subst wg wd. unfold serve, get_mcp, delete_mcp; simpl.
  rewrite !world_stream.
  destruct (world_stream_try_cases GET ctx (start w)) as [->|[rg ->]];
    destruct (world_stream_try_cases DELETE ctx (start w)) as [->|[rd ->]];
    simpl; repeat split; intros; rewrite ?handler_puts_lib_effect;
    try done; by apply subseteq_dom, transports_lib_effect_subseteq.
Qed.

(** ** Key consistency *)

(** C9. In every world reachable by the operations (construction, the
    insertion by the initialization callback, the direct insertion of the
    third POST branch, the removals), which includes the point right
    after that direct insertion, every key of the registry is the session
    id of the transport stored under it: the transport's [sessionId] is
    the key, or it is not assigned yet and the transport's generator is
    the constant function of the key. *)
Theorem registry_keys_are_session_ids w k r :
  reachable w →
  transports w !! k = Some r →
  ∃ t, heap w !! r = Some t ∧
       (sessionId t = Some k ∨
        (sessionId t = None ∧ sessionIdGenerator t = GenFixed k)).
Proof.
  intros Hreach Hk. by apply (reachable_registry_wf w Hreach).
Qed.

(** ** Shutdown *)

Section Shutdown.
Hypothesis close_assigns_nothing :
  ∀ r w, AssignSession ∉ lr_steps (lib CallClose r w).









(** The transport stored under [k'] can only remove [k']. *)
Lemma lookup_onclose_other r' k' k w :
  bound w r' k' → k ≠ k' →
  transports (onclose r' w) !! k = transports w !! k.
Proof.
  intros (t & Ht & Hb) Hne.
  destruct (onclose_cases r' w) as [->|(s & Hs & _ & ->)]; [done|].
  unfold transport_sessionId in Hs. rewrite Ht in Hs. simpl in Hs.
  destruct Hb as [Hb|[Hb _]]; [|congruence].
  assert (s = k') as -> by congruence.
  simpl. by apply lookup_delete_ne.
Qed.





End Shutdown.


(** ** How often a session is stored *)

Lemma put_discipline_initial : put_discipline initial_world.
Proof. intros r. by destruct r. Qed.

Lemma put_discipline_log e w :
  (∀ o r, is_put o r e = false) →
  put_discipline w → put_discipline (log e w).
Proof.
  intros He Hpd r. specialize (Hpd r).
  rewrite !count_puts_log, !He, !Nat.add_0_r. exact Hpd.
Qed.

Lemma put_discipline_set_transports f w :
  put_discipline w → put_discipline (set_transports f w).
Proof. intros Hpd r. exact (Hpd r). Qed.

Lemma put_discipline_alloc g w : put_discipline w → put_discipline (alloc g w).
Proof.
  intros Hpd. unfold alloc. apply put_discipline_log; [by intros [] ?|].
  intros r. destruct (Hpd r) as [Hcb Hhd]. simpl.
  destruct (decide (r < length (heap w))) as [Hlt|Hge].
  { by rewrite lookup_app_l by done. }
  rewrite lookup_ge_None_2 in Hcb, Hhd by lia. simpl in Hcb, Hhd.
  rewrite Hcb, Hhd. rewrite lookup_app_r by lia.
  destruct (r - length (heap w)) as [|n]; simpl; [|done].
  split; [done|]. destruct g; [done|lia].
Qed.

Lemma put_discipline_onclose r w :
  put_discipline w → put_discipline (onclose r w).
Proof.
  intros Hpd. destruct (onclose_cases r w) as [->|(s & _ & _ & ->)]; [done|].
  apply put_discipline_log; [by intros [] ?|].
  by apply put_discipline_set_transports.
Qed.

Lemma put_discipline_assign_session r0 w :
  put_discipline w → put_discipline (assign_session r0 w).
Proof.
  intros Hpd.
  destruct (assign_session_cases r0 w)
    as [->|(t & sid & w1 & Ht & Hnone & Hw1 & ->)]; [done|].
  assert (heap w1 = heap w ∧ trace w1 = trace w) as [Hh Htr]
    by (destruct Hw1 as [(_&_&->)|[_ ->]]; done).
  pose proof (lookup_lt_Some _ _ _ Ht) as Hlt.
  cbv zeta. intros r. destruct (Hpd r) as [Hcb Hhd].
  destruct (decide (r = r0)) as [->|Hne].
  - rewrite Ht in Hcb, Hhd. simpl in Hcb, Hhd.
    rewrite Hnone in Hcb. change (truthy None) with false in Hcb.
    destruct (truthy (Some sid)) eqn:Htruthy; simpl; rewrite Hh, Htr;
      rewrite list_lookup_insert_eq by done; simpl; rewrite Htruthy.
    + rewrite !count_puts_app. simpl.
      rewrite bool_decide_eq_true_2 by done. rewrite Hcb, Nat.add_0_r.
      split; [done|]. destruct (sessionIdGenerator t); lia.
    + by rewrite Hcb.
  - destruct (truthy (Some sid)); simpl; rewrite Hh, Htr;
      rewrite list_lookup_insert_ne by done; [|done].
    rewrite !count_puts_app. simpl.
    rewrite bool_decide_eq_false_2 by done. by rewrite !Nat.add_0_r.
Qed.

Lemma put_discipline_steps r steps w :
  put_discipline w → put_discipline (foldl (lib_step r) w steps).
Proof.
  revert w. induction steps as [|s steps IH]; intros w Hpd; simpl; [done|].
  apply IH. destruct s; simpl;
    [by apply put_discipline_assign_session|by apply put_discipline_onclose].
Qed.

Lemma put_discipline_lib_effect c r w :
  put_discipline w → put_discipline (lib_effect c r w).
Proof.
  intros Hpd. apply put_discipline_steps, put_discipline_log; [|done].
  by destruct c; intros [] ?.
Qed.

(** The direct insertion of the third branch: the transport was not
    stored by the handler before and has a constant generator. *)
Lemma put_discipline_put_direct k r0 w :
  put_discipline w →
  count_puts ByHandler r0 (trace w) = 0 →
  has_generator w r0 (GenFixed k) →
  put_discipline (log (EvPut ByHandler k r0) (set_transports <[k := r0]> w)).
Proof.
  intros Hpd Hzero (t & Ht & Hg) r.
  destruct (Hpd r) as [Hcb Hhd].
  rewrite !count_puts_log. simpl. rewrite !Nat.add_0_r.
  case_bool_decide as Hr; [|by rewrite Nat.add_0_r].
  subst r. split; [done|]. rewrite Ht, Hzero. simpl. rewrite Hg. lia.
Qed.

Lemma keeps_pd_call c r : keeps put_discipline (call c r).
Proof. apply keeps_call. intros w. apply put_discipline_lib_effect. Qed.

Lemma keeps_pd_construct g : keeps put_discipline (construct g).
Proof. apply keeps_construct. intros w. apply put_discipline_alloc. Qed.

Lemma keeps_pd_post_case3_create ctx :
  keeps put_discipline (post_case3_create ctx).
Proof.
  intros st Hpd. unfold_M.
  destruct (req_sessionId ctx) as [sid|]; [|done].
  simpl. destruct (lr_raises _); simpl.
  - by apply put_discipline_lib_effect, put_discipline_alloc.
  - apply put_discipline_put_direct.
    + by apply put_discipline_lib_effect, put_discipline_alloc.
    + rewrite handler_puts_lib_effect. unfold alloc.
      rewrite count_puts_log. simpl.
      destruct (Hpd (length (heap (world st)))) as [_ Hhd].
      rewrite lookup_ge_None_2 in Hhd by done. simpl in Hhd. by rewrite Hhd.
    + apply has_generator_lib_effect, has_generator_alloc_new.
Qed.

Lemma keeps_pd_post_mcp rev ctx : keeps put_discipline (post_mcp rev ctx).
Proof.
  unfold post_mcp, post_catch, set_status, set_body.
  apply keeps_try_catch; [|by repeat keeps_step].
  unfold post_try. apply keeps_getW_bind. intros st Hpd.
  destruct (post_route ctx (world st)) eqn:Hroute; as_keeps;
    unfold post_tail, call_on, ctx_set, set_respond, set_status, set_body;
    repeat first [apply keeps_pd_call | apply keeps_pd_construct
                 | apply keeps_pd_post_case3_create
                 | apply keeps_getW_bind; intros; as_keeps | keeps_step].
Qed.

Lemma keeps_pd_stream m ctx message :
  keeps put_discipline (try_catch (stream_try m ctx) (stream_catch message)).
Proof.
  unfold stream_catch, stream_try, call_on, set_status, set_body.
  apply keeps_try_catch; [|by repeat keeps_step].
  apply keeps_getW_bind. intros st Hpd. as_keeps.
  repeat first [apply keeps_pd_call | keeps_step].
Qed.

Lemma put_discipline_gracefulShutdown ks w :
  put_discipline w → put_discipline (gracefulShutdown ks w).
Proof.
  unfold gracefulShutdown. revert w.
  induction ks as [|k ks IH]; intros w Hpd; simpl; [done|].
  apply IH. unfold shutdown_iteration.
  destruct (transports w !! k) as [r|]; [|done].
  destruct (lr_raises _); [by apply put_discipline_lib_effect|].
  apply put_discipline_log; [by intros [] ?|].
  by apply put_discipline_set_transports, put_discipline_lib_effect.
Qed.

Lemma served_put_discipline w : served w → put_discipline w.
Proof.
  induction 1 as [|rev ctx w _ IH|ctx w _ IH Hroute|ctx w _ IH|ctx w _ IH
                 |r w _ IH|ks w _ IH].
  - apply put_discipline_initial.
  - by apply (keeps_pd_post_mcp rev ctx (start w)).
  - by apply (keeps_pd_post_case3_create ctx (start w)).
  - by apply (keeps_pd_stream GET ctx _ (start w)).
  - by apply (keeps_pd_stream DELETE ctx _ (start w)).
  - by apply put_discipline_onclose.
  - by apply put_discipline_gracefulShutdown.
Qed.

(** C5, as the code has it.  In every world reached by serving requests
    and for every transport: its initialization callback has stored it
    exactly once if it has a (non-empty) session id and never otherwise;
    the handler has stored it directly at most once, and never when its
    id is generated by [randomUUID] (the second POST branch): a direct
    store by the handler happens only for a transport built around a
    client-supplied id (the third POST branch).  So a registered session
    of the second branch was stored exactly once, by its callback, and
    never by the handler. *)
Theorem session_stored_once_per_writer w r t :
  served w →
  heap w !! r = Some t →
  count_puts ByCallback r (trace w) = (if truthy (sessionId t) then 1 else 0) ∧
  count_puts ByHandler r (trace w) ≤ 1 ∧
  (sessionIdGenerator t = GenRandomUUID →
   count_puts ByHandler r (trace w) = 0) ∧
  (∀ k, transports w !! k = Some r →
        sessionIdGenerator t = GenRandomUUID →
        stored_once_by_callback_only w r).
Proof.
  intros Hserved Ht.
  destruct (served_put_discipline w Hserved r) as [Hcb Hhd].
  rewrite Ht in Hcb, Hhd. simpl in Hcb, Hhd.
  assert (sessionIdGenerator t = GenRandomUUID →
          count_puts ByHandler r (trace w) = 0) as Hrandom.
  { intros Hg. by rewrite Hg in Hhd. }
  split; [done|]. split; [destruct (sessionIdGenerator t); lia|].
  split; [done|]. intros k Hk Hg.
  destruct (reachable_registry_wf w (served_reachable w Hserved)) as [Hc Hkt].
  destruct (Hc k r Hk) as (t0 & Ht0 & Hb).
  assert (t0 = t) as -> by congruence.
  destruct Hb as [Hb|[_ Hb]]; [|congruence].
  split; [|by apply Hrandom].
  rewrite Hcb, Hb. by rewrite (Hkt k r Hk).
Qed.

(** ** POST initialize *)

Lemma world_post_hit rev ctx w sid r :
  req_sessionId ctx = Some sid → truthy (Some sid) = true →
  transports w !! sid = Some r →
  (serve (post_mcp rev ctx) w).2 =
    lib_effect (CallHandleRequest POST (Some (req_body ctx))) r w.
Proof.
  intros Hs Ht Hr. unfold serve. simpl. rewrite world_post_mcp.
  unfold post_try. unfold mbind at 1, M_bind at 1, getW at 1. simpl.
  rewrite (post_route_Case1 ctx w sid r) by done. rewrite Hs. simpl.
  rewrite Hr. unfold mbind, M_bind, defined, mret, M_ret; simpl.
  apply world_post_tail.
Qed.





(** ** Exceptions never leave the handlers *)

Lemma try_catch_returns (m handler : M unit) st :
  (∀ st', (handler st').1 = Ret ()) → (try_catch m handler st).1 = Ret ().
Proof.
  intros Hh. unfold try_catch.
  destruct (m st) as [[[]|] st']; simpl; [done|apply Hh].
Qed.

Lemma post_catch_returns st : (post_catch st).1 = Ret ().
Proof. unfold_M. by destruct (negb _). Qed.

Lemma stream_catch_returns message st : (stream_catch message st).1 = Ret ().
Proof. unfold_M. by destruct (negb _). Qed.

Lemma try_catch_transparent (m outer : M unit) st :
  (m st).1 = Ret () → try_catch m outer st = m st.
Proof.
  intros Hm. unfold try_catch. destruct (m st) as [[[]|] st']; done.
Qed.

(** X1. Each of the four [/mcp] handlers catches whatever its body
    raises: it completes normally from every state, whatever the SDK
    does, so a [try]/[catch] wrapped around it (the error-handling
    middleware) never enters its [catch]. *)
Theorem mcp_handlers_never_throw rev ctx h st :
  h ∈ [post_mcp rev ctx; post_mcp_first ctx; get_mcp ctx; delete_mcp ctx] →
  (h st).1 = Ret () ∧ ∀ outer, try_catch h outer st = h st.
Proof.
  intros Hin.
  assert ((h st).1 = Ret ()) as Hret.
  { repeat (apply elem_of_cons in Hin as [->|Hin]);
      [apply try_catch_returns, post_catch_returns
      |apply try_catch_returns, post_catch_returns
      |apply try_catch_returns, stream_catch_returns
      |apply try_catch_returns, stream_catch_returns
      |by apply elem_of_nil in Hin]. }
  split; [done|]. intros outer. by apply try_catch_transparent.
Qed.

(** ** What the client is answered when the SDK raises *)

(** X2. The answer to a POST whose token is registered.  When
    [handleRequest] returns, the handler leaves status and body alone and
    turns Koa's own response off.  When it raises before any header was
    sent, the answer is status 500 with the JSON-RPC error -32603
    "Internal server error", id null.  When it raises after headers were
    sent, the handler changes nothing. *)
Theorem post_hit_response rev ctx w sid r :
  reachable w →
  req_sessionId ctx = Some sid →
  transports w !! sid = Some r →
  let run := lib (CallHandleRequest POST (Some (req_body ctx))) r w in
  (serve (post_mcp rev ctx) w).1 =
    if lr_raises run then
      if lr_headersSent run then
        {| ctx_status := 404; ctx_body := BodyUnset; ctx_headers := [];
           ctx_respond := true; res_headersSent := true |}
      else
        {| ctx_status := 500;
           ctx_body :=
             BodyJsonRpcError "2.0" (-32603) "Internal server error" None;
           ctx_headers := []; ctx_respond := true; res_headersSent := false |}
    else
      {| ctx_status := 404; ctx_body := BodyUnset; ctx_headers := [];
         ctx_respond := false; res_headersSent := lr_headersSent run |}.
Proof.
  intros Hreach Hs Hr run.
  pose proof (reachable_registry_wf w Hreach) as Hwf.
  assert (truthy (Some sid) = true) as Ht by (by eapply Hwf).
  unfold serve, post_mcp, try_catch, post_try.
  unfold mbind at 1, M_bind at 1, getW at 1. simpl.
  rewrite (post_route_Case1 ctx w sid r) by done. rewrite Hs. simpl.
  rewrite Hr. unfold_M. simpl. fold run.
  destruct (lr_raises run); simpl; [|done].
  by destruct (lr_headersSent run).
Qed.

(** X3. The answer to a GET or DELETE whose token is registered.  When
    [handleRequest] returns, the handler leaves the context alone (Koa's
    own response stays on).  When it raises before any header was sent,
    the answer is status 500 with the text "Internal server error" for
    GET and "Error processing session termination" for DELETE.  When it
    raises after headers were sent, the handler changes nothing. *)
Theorem stream_hit_response ctx w sid r :
  reachable w →
  req_sessionId ctx = Some sid →
  transports w !! sid = Some r →
  let answer (m : Method) (message : string) :=
    let run := lib (CallHandleRequest m None) r w in
    if lr_raises run && negb (lr_headersSent run) then
      {| ctx_status := 500; ctx_body := BodyText message; ctx_headers := [];
         ctx_respond := true; res_headersSent := false |}
    else
      {| ctx_status := 404; ctx_body := BodyUnset; ctx_headers := [];
         ctx_respond := true; res_headersSent := lr_headersSent run |} in
  (serve (get_mcp ctx) w).1 = answer GET "Internal server error" ∧
  (serve (delete_mcp ctx) w).1 =
    answer DELETE "Error processing session termination".
Proof.
  intros Hreach Hs Hr answer.
  pose proof (reachable_registry_wf w Hreach) as Hwf.
  assert (truthy (Some sid) = true) as Ht by (by eapply Hwf).
  subst answer.
  split; unfold serve, get_mcp, delete_mcp, try_catch, stream_try;
    unfold mbind at 1, M_bind at 1, getW at 1; simpl; rewrite Hs, Ht; simpl;
    rewrite Hr; rewrite bool_decide_eq_true_2 by done; simpl;
    unfold_M; simpl;
    destruct (lr_raises _); simpl; try done;
    by destruct (lr_headersSent _).
Qed.

(** ** A transport whose connection fails *)

(** X4. Third POST branch (a non-empty token for which the read
    [transports[sessionId]] is [undefined]), [server.connect] raises: the
    transport has been constructed but the handler neither stores it nor
    hands it the request: the final world is the world right after the
    failed [connect].  If [connect] fired no callback the registry is
    what it was, so the token is still unknown; and if no header was sent
    the client is answered 500 with the JSON-RPC error -32603. *)
Theorem post_miss_connect_fails rev ctx w sid :
  req_sessionId ctx = Some sid →
  truthy (Some sid) = true →
  registry_get (Some sid) w = None →
  let r := length (heap w) in
  let w0 := alloc (GenFixed sid) w in
  lr_raises (lib CallConnect r w0) = true →
  let k := (serve (post_mcp rev ctx) w).1 in
  let w' := (serve (post_mcp rev ctx) w).2 in
  w' = lib_effect CallConnect r w0 ∧
  length (heap w') = S (length (heap w)) ∧
  count_puts ByHandler r (trace w') = count_puts ByHandler r (trace w) ∧
  (lr_steps (lib CallConnect r w0) = [] → transports w' = transports w) ∧
  (lr_headersSent (lib CallConnect r w0) = false →
   ctx_status k = 500 ∧ ctx_body k = internal_error).
Proof.
  intros Hs Ht Hr r w0 Hfail k w'.
  assert (post_route ctx w = Case3) as Hroute
    by (by eapply post_route_Case3_intro).
  assert (post_try rev ctx (start w) =
          (Throw, {| world := lib_effect CallConnect r w0;
                     koa := mark_headersSent
                              (lr_headersSent (lib CallConnect r w0))
                              fresh_koa |})) as Htry.
  { unfold post_try. unfold mbind at 1, M_bind at 1, getW at 1. simpl.
    rewrite Hroute. unfold_M. rewrite Hs. simpl. fold r w0.
    by rewrite Hfail. }
  assert (w' = lib_effect CallConnect r w0) as Hw'.
  { subst w'. unfold serve. simpl. rewrite world_post_mcp.
    by rewrite Htry. }
  split; [done|]. rewrite Hw'. split.
  { rewrite length_heap_lib_effect. unfold w0, alloc. simpl.
    rewrite length_app. simpl. lia. }
  split.
  { rewrite handler_puts_lib_effect. unfold w0, alloc.
    rewrite count_puts_log. simpl. lia. }
  split; [intros Hq; by rewrite lib_effect_quiet|].
  intros Hsent. subst k. unfold serve, post_mcp, try_catch.
  rewrite Htry. unfold_M. simpl. by rewrite Hsent.
Qed.

(** X5. Second POST branch, the SDK raises: when [server.connect] raises
    the request is never handed to the transport, and when
    [handleRequest] raises the handler skips the rest of the branch.  In
    both cases it sets no [mcp-session-id] header and leaves Koa's own
    response on, even if the engine has assigned and registered the
    session before raising. *)
Theorem post_initialize_sdk_raises rev ctx w :
  truthy (req_sessionId ctx) = false →
  isInitializeRequest (req_body ctx) = true →
  let r := length (heap w) in
  let w0 := alloc GenRandomUUID w in
  let w1 := lib_effect CallConnect r w0 in
  let handle := CallHandleRequest POST (Some (req_body ctx)) in
  let k := (serve (post_mcp rev ctx) w).1 in
  let w' := (serve (post_mcp rev ctx) w).2 in
  (lr_raises (lib CallConnect r w0) = true →
   w' = w1 ∧ ctx_headers k = [] ∧ ctx_respond k = true) ∧
  (lr_raises (lib CallConnect r w0) = false →
   lr_raises (lib handle r w1) = true →
   w' = lib_effect handle r w1 ∧ ctx_headers k = [] ∧ ctx_respond k = true).
Proof.
  intros Hnotoken Hinit r w0 w1 handle k w'.
  assert (post_route ctx w = Case2) as Hroute by (by apply post_route_Case2).
  assert (∀ st, world (post_catch st).2 = world st ∧
                ctx_headers (koa (post_catch st).2) = ctx_headers (koa st) ∧
                ctx_respond (koa (post_catch st).2) = ctx_respond (koa st))
    as Hcatch.
  { intros st. unfold_M. by destruct (negb _). }
  subst k w'. unfold serve, post_mcp, try_catch. split.
  - intros Hfail.
    assert (post_try rev ctx (start w) =
            (Throw, {| world := w1;
                       koa := mark_headersSent
                                (lr_headersSent (lib CallConnect r w0))
                                fresh_koa |})) as ->.
    { unfold post_try. unfold mbind at 1, M_bind at 1, getW at 1. simpl.
      rewrite Hroute. unfold_M. simpl. fold r w0. by rewrite Hfail. }
    simpl. by destruct (Hcatch {| world := w1;
      koa := mark_headersSent (lr_headersSent (lib CallConnect r w0))
               fresh_koa |}) as (-> & -> & ->).
  - intros Hok Hfail.
    assert (post_try rev ctx (start w) =
            (Throw, {| world := lib_effect handle r w1;
                       koa := mark_headersSent
                                (lr_headersSent (lib handle r w1))
                                (mark_headersSent
                                   (lr_headersSent (lib CallConnect r w0))
                                   fresh_koa) |})) as ->.
    { unfold post_try. unfold mbind at 1, M_bind at 1, getW at 1. simpl.
      rewrite Hroute. unfold_M. simpl. fold r w0. rewrite Hok. simpl.
      fold w1 handle. by rewrite Hfail. }
    simpl. by destruct (Hcatch {| world := lib_effect handle r w1;
      koa := mark_headersSent (lr_headersSent (lib handle r w1))
               (mark_headersSent (lr_headersSent (lib CallConnect r w0))
                  fresh_koa) |}) as (-> & -> & ->).
Qed.

(** ** More invariants of the registry *)

(** X6. In every reachable world no transport is registered under two
    keys, and no key is the empty string. *)
Theorem registry_no_aliasing w k1 k2 r :
  reachable w →
  transports w !! k1 = Some r →
  transports w !! k2 = Some r →
  k1 = k2 ∧ k1 ≠ EmptyString.
Proof.
  intros Hreach H1 H2.
  destruct (reachable_registry_wf w Hreach) as [Hc Hk].
  destruct (Hc _ _ H1) as (t1 & Ht1 & Hb1).
  destruct (Hc _ _ H2) as (t2 & Ht2 & Hb2).
  assert (t2 = t1) as -> by congruence.
  split.
  - destruct Hb1 as [?|[? ?]], Hb2 as [?|[? ?]]; congruence.
  - intros ->. by pose proof (Hk _ _ H1).
Qed.

Lemma has_session_id_assign_session r' r s w :
  has_session_id r s w → has_session_id r s (assign_session r' w).
Proof.
  unfold has_session_id, transport_sessionId. intros Hs.
  destruct (assign_session_cases r' w)
    as [->|(t & sid & w1 & Ht & Hnone & Hw1 & ->)]; [done|].
  assert (heap w1 = heap w) as Hh by (destruct Hw1 as [(_&_&->)|[_ ->]]; done).
  assert (r ≠ r') as Hne.
  { intros ->. rewrite Ht in Hs. simpl in Hs. congruence. }
  cbv zeta. destruct (truthy (Some sid)); simpl; rewrite Hh;
    by rewrite list_lookup_insert_ne.
Qed.

Lemma has_session_id_lib_effect c r' r s w :
  has_session_id r s w → has_session_id r s (lib_effect c r' w).
Proof.
  intros Hs. unfold lib_effect.
  assert (has_session_id r s (log (call_event c r') w)) as Hs' by done.
  revert Hs'. generalize (log (call_event c r') w).
  induction (lr_steps (lib c r' w)) as [|step steps IH]; intros w0 Hs0;
    simpl; [done|].
  apply IH. destruct step; simpl; [by apply has_session_id_assign_session|].
  unfold has_session_id, transport_sessionId. by rewrite heap_onclose.
Qed.

Lemma has_session_id_alloc g r s w :
  has_session_id r s w → has_session_id r s (alloc g w).
Proof.
  unfold has_session_id, transport_sessionId. simpl. intros Hs.
  destruct (heap w !! r) as [t|] eqn:Ht; [|done].
  by rewrite (lookup_app_l_Some _ _ _ _ Ht).
Qed.

Lemma keeps_has_session_id_call r s c r' :
  keeps (has_session_id r s) (call c r').
Proof. apply keeps_call. intros w. apply has_session_id_lib_effect. Qed.

Lemma has_session_id_gracefulShutdown r s ks w :
  has_session_id r s w → has_session_id r s (gracefulShutdown ks w).
Proof.
  unfold gracefulShutdown. revert w.
  induction ks as [|k ks IH]; intros w Hs; simpl; [done|].
  apply IH. unfold shutdown_iteration.
  destruct (transports w !! k) as [r'|]; [|done].
  destruct (lr_raises _); by apply has_session_id_lib_effect.
Qed.

Lemma keeps_has_session_id_post_case3_create r s ctx :
  keeps (has_session_id r s) (post_case3_create ctx).
Proof.
  intros st Hst. unfold_M.
  destruct (req_sessionId ctx) as [sid|]; [|done]. simpl.
  destruct (lr_raises _); simpl;
    by apply has_session_id_lib_effect, has_session_id_alloc.
Qed.

Lemma keeps_has_session_id_post_mcp r s rev ctx :
  keeps (has_session_id r s) (post_mcp rev ctx).
Proof.
  unfold post_mcp, post_catch.
  apply keeps_try_catch; [|unfold set_status, set_body; by repeat keeps_step].
  unfold post_try. apply keeps_getW_bind. intros st Hst.
  destruct (post_route ctx (world st)); as_keeps;
    unfold post_tail, call_on, ctx_set, set_respond, set_status, set_body;
    repeat first [apply keeps_has_session_id_call
                 | apply keeps_has_session_id_post_case3_create
                 | apply keeps_construct; intros ?;
                   apply has_session_id_alloc
                 | apply keeps_getW_bind; intros; as_keeps | keeps_step].
Qed.

Lemma keeps_has_session_id_post_mcp_first r s ctx :
  keeps (has_session_id r s) (post_mcp_first ctx).
Proof.
  unfold post_mcp_first, post_catch.
  apply keeps_try_catch; [|unfold set_status, set_body; by repeat keeps_step].
  unfold post_try_first, call_on. apply keeps_getW_bind. intros st Hst.
  destruct (post_route_first ctx (world st)); as_keeps;
    unfold set_status, set_body;
    repeat first [apply keeps_has_session_id_call
                 | apply keeps_construct; intros ?;
                   apply has_session_id_alloc | keeps_step].
Qed.

Lemma keeps_has_session_id_stream r s m ctx message :
  keeps (has_session_id r s)
        (try_catch (stream_try m ctx) (stream_catch message)).
Proof.
  unfold stream_catch, stream_try, call_on.
  apply keeps_try_catch; [|unfold set_status, set_body; by repeat keeps_step].
  apply keeps_getW_bind. intros st Hst. as_keeps.
  unfold set_status, set_body.
  repeat first [apply keeps_has_session_id_call | keeps_step].
Qed.

(** X7. Once the engine has assigned a transport its session id, no
    handler, callback or shutdown loop changes it: the transport has the
    same [sessionId] after any POST (of any revision), GET, DELETE, close
    callback, further assignment, and after the shutdown loop. *)
Theorem session_id_is_stable r s w :
  transport_sessionId r w = Some s →
  ∀ w',
    (∃ rev ctx, w' = (serve (post_mcp rev ctx) w).2) ∨
    (∃ ctx, w' = (serve (post_mcp_first ctx) w).2) ∨
    (∃ ctx, w' = (serve (get_mcp ctx) w).2) ∨
    (∃ ctx, w' = (serve (delete_mcp ctx) w).2) ∨
    (∃ r', w' = onclose r' w) ∨
    (∃ r', w' = assign_session r' w) ∨
    (∃ ks, w' = gracefulShutdown ks w) →
    transport_sessionId r w' = Some s.
Proof.
  intros Hs w' Hw'.
  change (has_session_id r s w) in Hs. change (has_session_id r s w').
  destruct Hw' as [(rev & ctx & ->)|[(ctx & ->)|[(ctx & ->)|[(ctx & ->)
                  |[(r' & ->)|[(r' & ->)|(ks & ->)]]]]]].
  - exact (keeps_has_session_id_post_mcp r s rev ctx (start w) Hs).
  - exact (keeps_has_session_id_post_mcp_first r s ctx (start w) Hs).
  - exact (keeps_has_session_id_stream r s GET ctx _ (start w) Hs).
  - exact (keeps_has_session_id_stream r s DELETE ctx _ (start w) Hs).
  - unfold has_session_id, transport_sessionId. by rewrite heap_onclose.
  - by apply has_session_id_assign_session.
  - by apply has_session_id_gracefulShutdown.
Qed.

(** ** A request touches only its own session *)

Lemma lookup_assign_session_other r sid k w :
  bound w r sid → k ≠ sid →
  transports (assign_session r w) !! k = transports w !! k.
Proof.
  intros (t0 & Ht0 & Hb) Hne.
  destruct (assign_session_cases r w)
    as [->|(t & sid' & w1 & Ht & Hnone & Hw1 & ->)]; [done|].
  assert (t0 = t) as -> by congruence.
  destruct Hb as [Hb|[_ Hg]]; [congruence|].
  destruct Hw1 as [(Hg' & _)|[Hg' ->]]; [congruence|].
  assert (sid' = sid) as -> by congruence.
  cbv zeta. destruct (truthy (Some sid)); simpl; [|done].
  by rewrite lookup_insert_ne.
Qed.

Lemma lookup_steps_other r sid k steps w :
  bound w r sid → k ≠ sid →
  transports (foldl (lib_step r) w steps) !! k = transports w !! k.
Proof.
  revert w. induction steps as [|s steps IH]; intros w Hb Hne; simpl; [done|].
  rewrite IH; [|by apply bound_lib_step|done].
  destruct s; simpl;
    [by eapply lookup_assign_session_other|by eapply lookup_onclose_other].
Qed.

Lemma lookup_lib_effect_other c r sid k w :
  bound w r sid → k ≠ sid →
  transports (lib_effect c r w) !! k = transports w !! k.
Proof.
  intros Hb Hne. unfold lib_effect.
  by rewrite (lookup_steps_other r sid k _ (log (call_event c r) w)).
Qed.

(** The world after a POST of the third branch. *)
Lemma world_post_miss rev ctx w sid :
  req_sessionId ctx = Some sid → truthy (Some sid) = true →
  registry_get (Some sid) w = None →
  let r := length (heap w) in
  let w1 := lib_effect CallConnect r (alloc (GenFixed sid) w) in
  (serve (post_mcp rev ctx) w).2 =
    if lr_raises (lib CallConnect r (alloc (GenFixed sid) w)) then w1
    else lib_effect (CallHandleRequest POST (Some (req_body ctx))) r
           (log (EvPut ByHandler sid r) (set_transports <[sid := r]> w1)).
Proof.
  intros Hs Ht Hr r w1.
  unfold serve. simpl. rewrite world_post_mcp. unfold post_try.
  unfold mbind at 1, M_bind at 1, getW at 1. simpl.
  rewrite (post_route_Case3_intro ctx w sid) by done.
  unfold mbind at 1, M_bind at 1.
  destruct (lr_raises (lib CallConnect r (alloc (GenFixed sid) w))) eqn:Hc.
  - unfold_M. rewrite Hs. simpl. fold r. by rewrite Hc.
  - assert (post_case3_create ctx (start w) =
            (Ret r, {| world := log (EvPut ByHandler sid r)
                                 (set_transports <[sid := r]> w1);
                       koa := mark_headersSent
                                (lr_headersSent
                                   (lib CallConnect r
                                      (alloc (GenFixed sid) w))) fresh_koa |}))
      as ->.
    { unfold_M. rewrite Hs. simpl. fold r. by rewrite Hc. }
    apply world_post_tail.
Qed.

(** X8. In a reachable world, a request that carries a non-empty session
    token changes the registry at most at that token: after a POST, GET or
    DELETE with token [sid], every other key is registered exactly as
    before, whatever callbacks the SDK fires during the request. *)
Theorem request_touches_only_its_session rev ctx w sid k :
  reachable w →
  req_sessionId ctx = Some sid →
  truthy (Some sid) = true →
  k ≠ sid →
  transports (serve (post_mcp rev ctx) w).2 !! k = transports w !! k ∧
  transports (serve (get_mcp ctx) w).2 !! k = transports w !! k ∧
  transports (serve (delete_mcp ctx) w).2 !! k = transports w !! k.
Proof.
  intros Hreach Hs Ht Hne.
  destruct (reachable_registry_wf w Hreach) as [Hc _].
  destruct (transports w !! sid) as [r|] eqn:Hr.
  - pose proof (Hc _ _ Hr) as Hb.
    rewrite (world_post_hit rev ctx w sid r) by done.
    unfold serve, get_mcp, delete_mcp; simpl. rewrite !world_stream.
    rewrite !(world_stream_try_hit _ ctx (start w) sid r) by done. simpl.
    repeat split; by eapply lookup_lib_effect_other.
  - destruct (inherited sid) eqn:Hi.
    { rewrite (serve_post_inherited rev ctx w sid) by done.
      unfold get_mcp, delete_mcp.
      by rewrite !(serve_stream_inherited _ _ ctx w sid) by done. }
    assert (registry_get (Some sid) w = None) as Hg
      by (by apply registry_get_undefined).
    split.
    + rewrite (world_post_miss rev ctx w sid) by done.
      assert (bound (lib_effect CallConnect (length (heap w))
                       (alloc (GenFixed sid) w)) (length (heap w)) sid) as Hb
        by apply bound_lib_effect, bound_alloc_new.
      assert (transports (lib_effect CallConnect (length (heap w))
                            (alloc (GenFixed sid) w)) !! k
              = transports w !! k) as Hconn.
      { rewrite (lookup_lib_effect_other _ _ sid); [done| |done].
        apply bound_alloc_new. }
      destruct (lr_raises _); [done|].
      rewrite (lookup_lib_effect_other _ _ sid); [|done|done].
      simpl. by rewrite lookup_insert_ne.
    + unfold serve, get_mcp, delete_mcp, try_catch.
      rewrite !stream_try_reject by (by rewrite Hs). done.
Qed.

Lemma onclose_registered w k r :
  registry_wf w →
  transports w !! k = Some r →
  (transport_sessionId r w = Some k ∧
   transports (onclose r w) = delete k (transports w)) ∨
  (transport_sessionId r w = None ∧ onclose r w = w).
Proof.
  intros [Hc Hkt] Hk.
  destruct (Hc _ _ Hk) as (t & Ht & Hb). pose proof (Hkt _ _ Hk) as Htruthy.
  assert (transport_sessionId r w = sessionId t) as Hsid
    by (unfold transport_sessionId; by rewrite Ht).
  unfold onclose. rewrite Hsid.
  destruct Hb as [Hb|[Hb _]]; rewrite Hb; [left|by right].
  split; [done|]. destruct k as [|a k]; [done|].
  rewrite Hk. by rewrite bool_decide_eq_true_2.
Qed.

(** X9. What the close callback does to a registered session, in a
    reachable world: if the transport has its session id, the callback
    removes exactly that session's entry; if the transport was stored by
    the third POST branch and the engine has not assigned its id yet, the
    callback changes nothing and the entry stays. *)
Theorem close_callback_removes_own_entry w k r :
  reachable w →
  transports w !! k = Some r →
  (transport_sessionId r w = Some k ∧
   transports (onclose r w) = delete k (transports w)) ∨
  (transport_sessionId r w = None ∧ onclose r w = w).
Proof.
  intros Hreach Hk. apply onclose_registered; [|done].
  by apply reachable_registry_wf.
Qed.

(** X10. DELETE followed by other requests.  In a reachable world, a
    DELETE hits a registered session and the SDK signals closure.

    If the transport has its session id, the close callback removes the
    entry: the session is gone from the registry.  Then, unless the id is
    the name of a member of [Object.prototype], a GET with the same token
    is answered 400 "Invalid or missing session ID", while a POST with the
    same token is not rejected by the later revisions: it takes the third
    branch, which creates a new session under that id (the earliest
    revision rejects it).

    If the transport was stored by the third POST branch and the engine
    has not assigned its id yet, the close callback removes nothing: the
    registry is what it was, and a POST with the same token takes the
    first branch again. *)
Theorem delete_then_requests ctx w sid r :
  reachable w →
  req_sessionId ctx = Some sid →
  transports w !! sid = Some r →
  lr_steps (lib (CallHandleRequest DELETE None) r w) = [SignalClose] →
  let w' := (serve (delete_mcp ctx) w).2 in
  (transport_sessionId r w = Some sid →
   transports w' = delete sid (transports w) ∧
   (inherited sid = false →
    serve (get_mcp ctx) w' = (invalid_session_response, w') ∧
    post_route ctx w' = Case3 ∧
    post_route_first ctx w' = FirstReject)) ∧
  (transport_sessionId r w = None →
   transports w' = transports w ∧
   post_route ctx w' = Case1).
Proof.
  intros Hreach Hs Hr Hsteps w'.
  destruct (reachable_registry_wf w Hreach) as [Hc Hkt].
  pose proof (Hkt _ _ Hr) as Ht.
  assert (w' = onclose r (log (EvHandleRequest DELETE r) w)) as Hw'.
  { subst w'. unfold serve, delete_mcp; simpl. rewrite world_stream.
    rewrite (world_stream_try_hit _ ctx (start w) sid r) by done. simpl.
    unfold lib_effect. by rewrite Hsteps. }
  clearbody w'. subst w'.
  pose proof (onclose_registered (log (EvHandleRequest DELETE r) w) sid r)
    as Hclose.
  split.
  - intros Hsid.
    destruct Hclose as [[_ Hdel]|[Hnone _]];
      [by apply reachable_registry_wf, reach_log|done| |].
    2:{ unfold transport_sessionId in *. simpl in Hnone. congruence. }
    split; [done|]. intros Hi.
    assert (registry_get (Some sid)
              (onclose r (log (EvHandleRequest DELETE r) w)) = None) as Hgone.
    { apply registry_get_undefined. split; [|done].
      rewrite Hdel. apply lookup_delete_eq. }
    split.
    { unfold serve, get_mcp, try_catch.
      rewrite stream_try_reject by (by rewrite Hs). done. }
    split; [by eapply post_route_Case3_intro|].
    unfold post_route_first. rewrite Hs, Ht, Hgone.
    by rewrite bool_decide_eq_false_2 by (by intros [? ?]).
  - intros Hnone.
    destruct Hclose as [[Hsome _]|[_ Hsame]];
      [by apply reachable_registry_wf, reach_log|done| |].
    { unfold transport_sessionId in *. simpl in Hsome. congruence. }
    rewrite Hsame. split; [done|]. by eapply post_route_Case1.
Qed.

(** ** The earliest revision *)

Lemma serve_post_first_inherited ctx w sid :
  req_sessionId ctx = Some sid →
  transports w !! sid = None → inherited sid = true →
  serve (post_mcp_first ctx) w =
    ({| ctx_status := 500; ctx_body := internal_error; ctx_headers := [];
        ctx_respond := true; res_headersSent := false |}, w).
Proof.
  intros Hs Hr Hi. pose proof (inherited_truthy sid Hi) as Ht.
  assert (registry_get (Some sid) w = Some Inherited) as Hg
    by (by apply registry_get_Inherited).
  assert (post_route_first ctx w = FirstReuse) as Hroute.
  { unfold post_route_first. rewrite Hs, Ht, Hg.
    by rewrite bool_decide_eq_true_2. }
  unfold post_mcp_first, post_try_first. unfold_M. simpl.
  by rewrite Hroute, Hs, Hg.
Qed.

(** X11. The POST handler of the earliest revision has no branch for an
    unknown token: a POST with a non-empty token for which the read
    [transports[sessionId]] is [undefined], like a POST without token and
    without an initialize body, is answered 400 with the JSON-RPC error
    -32000, and the world is what it was: no transport is constructed and
    nothing is registered.  A token under which nothing is registered but
    which names a member of [Object.prototype] takes the reuse branch
    instead: the call of [handleRequest] on the member raises and the
    answer is 500 with the JSON-RPC error -32603; the world is what it
    was there too. *)
Theorem post_first_rejects_unknown_token ctx w :
  ((∃ sid, req_sessionId ctx = Some sid ∧ truthy (Some sid) = true ∧
           registry_get (Some sid) w = None) ∨
   (truthy (req_sessionId ctx) = false ∧
    isInitializeRequest (req_body ctx) = false) →
   serve (post_mcp_first ctx) w =
     ({| ctx_status := 400;
         ctx_body :=
           BodyJsonRpcError "2.0" (-32000)
             "Bad Request: No valid session ID provided" None;
         ctx_headers := []; ctx_respond := true; res_headersSent := false |},
      w)) ∧
  (∀ sid, req_sessionId ctx = Some sid →
     transports w !! sid = None → inherited sid = true →
     serve (post_mcp_first ctx) w =
       ({| ctx_status := 500;
           ctx_body :=
             BodyJsonRpcError "2.0" (-32603) "Internal server error" None;
           ctx_headers := []; ctx_respond := true;
           res_headersSent := false |}, w)).
Proof.
  split; [|intros sid Hs Hr Hi; by eapply serve_post_first_inherited].
  intros Hcase.
  assert (post_route_first ctx w = FirstReject) as Hroute.
  { unfold post_route_first.
    destruct Hcase as [(sid & Hs & Ht & Hr)|[Ht Hi]].
    - rewrite Hs, Ht, Hr.
      by rewrite bool_decide_eq_false_2 by (by intros [? ?]).
    - by rewrite Ht, Hi. }
  unfold post_mcp_first, post_try_first. unfold_M. simpl. by rewrite Hroute.
Qed.

Lemma all_random_assign_session r0 w :
  all_random w → all_random (assign_session r0 w).
Proof.
  intros Hall.
  destruct (assign_session_cases r0 w)
    as [->|(t & sid & w1 & Ht & Hnone & Hw1 & ->)]; [done|].
  assert (heap w1 = heap w) as Hh by (destruct Hw1 as [(_&_&->)|[_ ->]]; done).
  assert (all_random
            (set_heap <[r0 := {| sessionIdGenerator := sessionIdGenerator t;
                                 sessionId := Some sid |}]> w1)) as Hall'.
  { intros r t0. simpl. rewrite Hh.
    destruct (decide (r = r0)) as [->|Hne].
    - rewrite list_lookup_insert_eq by (by eapply lookup_lt_Some).
      intros [= <-]. simpl. by eapply Hall.
    - rewrite list_lookup_insert_ne by done. apply Hall. }
  cbv zeta. by destruct (truthy (Some sid)).
Qed.

Lemma all_random_lib_effect c r w :
  all_random w → all_random (lib_effect c r w).
Proof.
  intros Hall. unfold lib_effect.
  assert (all_random (log (call_event c r) w)) as Hall' by done.
  revert Hall'. generalize (log (call_event c r) w).
  induction (lr_steps (lib c r w)) as [|step steps IH]; intros w0 Hw0;
    simpl; [done|].
  apply IH. destruct step; simpl; [by apply all_random_assign_session|].
  unfold all_random. by rewrite heap_onclose.
Qed.

Lemma all_random_alloc w : all_random w → all_random (alloc GenRandomUUID w).
Proof.
  intros Hall r t. simpl. intros Ht.
  apply lookup_app_Some in Ht as [Ht|[_ Ht]]; [by eapply Hall|].
  by apply list_lookup_singleton_Some in Ht as [_ <-].
Qed.

Lemma all_random_gracefulShutdown ks w :
  all_random w → all_random (gracefulShutdown ks w).
Proof.
  unfold gracefulShutdown. revert w.
  induction ks as [|k ks IH]; intros w Hall; simpl; [done|].
  apply IH. unfold shutdown_iteration.
  destruct (transports w !! k) as [r|]; [|done].
  destruct (lr_raises _); by apply all_random_lib_effect.
Qed.

(** The handlers of the earliest revision keep [I] if the SDK calls and
    the construction of a transport with a random id do. *)
Lemma keeps_first_handlers (I : World → Prop) :
  (∀ c r w, I w → I (lib_effect c r w)) →
  (∀ w, I w → I (alloc GenRandomUUID w)) →
  (∀ ctx, keeps I (post_mcp_first ctx)) ∧
  (∀ m ctx message,
     keeps I (try_catch (stream_try m ctx) (stream_catch message))).
Proof.
  intros Hcall Halloc. split.
  - intros ctx. unfold post_mcp_first, post_catch.
    apply keeps_try_catch;
      [|unfold set_status, set_body; by repeat keeps_step].
    unfold post_try_first, call_on. apply keeps_getW_bind. intros st Hst.
    destruct (post_route_first ctx (world st)); as_keeps;
      unfold set_status, set_body;
      repeat first [apply keeps_call; intros ?; apply Hcall
                   | apply keeps_construct; apply Halloc | keeps_step].
  - intros m ctx message. unfold stream_catch, stream_try, call_on.
    apply keeps_try_catch;
      [|unfold set_status, set_body; by repeat keeps_step].
    apply keeps_getW_bind. intros st Hst. as_keeps.
    unfold set_status, set_body.
    repeat first [apply keeps_call; intros ?; apply Hcall | keeps_step].
Qed.

Lemma served_first_invariants w :
  served_first w → reachable w ∧ put_discipline w ∧ all_random w.
Proof.
  destruct (keeps_first_handlers reachable) as [Hr1 Hr2];
    [intros; by apply reachable_lib_effect|intros; by apply reach_construct|].
  destruct (keeps_first_handlers put_discipline) as [Hp1 Hp2];
    [intros; by apply put_discipline_lib_effect
    |intros; by apply put_discipline_alloc|].
  destruct (keeps_first_handlers all_random) as [Ha1 Ha2];
    [intros; by apply all_random_lib_effect|intros; by apply all_random_alloc|].
  induction 1 as [|ctx w _ (IH1 & IH2 & IH3)|ctx w _ (IH1 & IH2 & IH3)
                 |ctx w _ (IH1 & IH2 & IH3)|r w _ (IH1 & IH2 & IH3)
                 |ks w _ (IH1 & IH2 & IH3)].
  - split; [apply reach_initial|]. split; [apply put_discipline_initial|].
    intros r t. simpl. by rewrite lookup_nil.
  - split; [exact (Hr1 ctx (start w) IH1)|].
    split; [exact (Hp1 ctx (start w) IH2)|exact (Ha1 ctx (start w) IH3)].
  - split; [exact (Hr2 GET ctx _ (start w) IH1)|].
    split; [exact (Hp2 GET ctx _ (start w) IH2)
           |exact (Ha2 GET ctx _ (start w) IH3)].
  - split; [exact (Hr2 DELETE ctx _ (start w) IH1)|].
    split; [exact (Hp2 DELETE ctx _ (start w) IH2)
           |exact (Ha2 DELETE ctx _ (start w) IH3)].
  - split; [by apply reach_onclose|].
    split; [by apply put_discipline_onclose|].
    unfold all_random. by rewrite heap_onclose.
  - split; [by apply reachable_gracefulShutdown|].
    split; [by apply put_discipline_gracefulShutdown
           |by apply all_random_gracefulShutdown].
Qed.

(** X12. In the earliest revision the registration rule of the
    specification holds without exception: in every world reached by
    serving requests, every registered session was stored exactly once,
    by its initialization callback, and never by a handler; its transport
    draws its id with [randomUUID] and has the key as its [sessionId]. *)
Theorem first_revision_stores_once_by_callback w k r :
  served_first w →
  transports w !! k = Some r →
  stored_once_by_callback_only w r ∧
  ∃ t, heap w !! r = Some t ∧ sessionIdGenerator t = GenRandomUUID ∧
       sessionId t = Some k.
Proof.
  intros Hserved Hk.
  destruct (served_first_invariants w Hserved) as (Hreach & Hpd & Hall).
  destruct (reachable_registry_wf w Hreach) as [Hc Hkt].
  destruct (Hc _ _ Hk) as (t & Ht & Hb).
  pose proof (Hall _ _ Ht) as Hg.
  destruct Hb as [Hb|[_ Hb]]; [|congruence].
  destruct (Hpd r) as [Hcb Hhd]. rewrite Ht in Hcb, Hhd. simpl in Hcb, Hhd.
  rewrite Hg in Hhd. rewrite Hb, (Hkt _ _ Hk) in Hcb.
  split; [by split|]. by exists t.
Qed.

(** ** Which requests draw a UUID *)

Lemma settled_assign_session r w :
  settled r w → assign_session r w = w ∨
  (uuids (assign_session r w) = uuids w ∧ settled r (assign_session r w)).
Proof.
  intros Hset.
  destruct (assign_session_cases r w)
    as [->|(t & sid & w1 & Ht & Hnone & Hw1 & Heq)]; [by left|].
  right. destruct (Hset t Ht) as [[s Hs]|[s Hg]]; [congruence|].
  destruct Hw1 as [(Hg' & _)|[_ ->]]; [congruence|].
  rewrite Heq. cbv zeta.
  assert (settled r (set_heap <[r := {| sessionIdGenerator :=
                                          sessionIdGenerator t;
                                        sessionId := Some sid |}]> w)) as Hs'.
  { intros t'. simpl.
    rewrite list_lookup_insert_eq by (by eapply lookup_lt_Some).
    intros [= <-]. left. by eexists. }
  by destruct (truthy (Some sid)).
Qed.

Lemma settled_steps r steps w :
  settled r w →
  uuids (foldl (lib_step r) w steps) = uuids w ∧
  settled r (foldl (lib_step r) w steps).
Proof.
  revert w. induction steps as [|s steps IH]; intros w Hset; simpl; [done|].
  destruct s; simpl.
  - destruct (settled_assign_session r w Hset) as [->|[Hu Hs]];
      [by apply IH|].
    destruct (IH _ Hs) as [Hu' Hs']. by rewrite Hu', Hu.
  - assert (settled r (onclose r w)) as Hs
      by (unfold settled; by rewrite heap_onclose).
    destruct (IH _ Hs) as [Hu' Hs']. by rewrite Hu', uuids_onclose.
Qed.

Lemma settled_lib_effect c r w :
  settled r w →
  uuids (lib_effect c r w) = uuids w ∧ settled r (lib_effect c r w).
Proof.
  intros Hset. unfold lib_effect.
  by apply (settled_steps r _ (log (call_event c r) w)).
Qed.

Lemma registered_settled w k r : registry_wf w → transports w !! k = Some r →
  settled r w.
Proof.
  intros [Hc _] Hk t Ht. destruct (Hc _ _ Hk) as (t' & Ht' & Hb).
  assert (t' = t) as -> by congruence.
  destruct Hb as [Hb|[_ Hb]]; [left|right]; by eexists.
Qed.

(** From an arbitrary transport: at most one draw, after which it is
    settled. *)
Lemma uuids_steps_once r steps w :
  uuids (foldl (lib_step r) w steps) = uuids w ∨
  (uuids (foldl (lib_step r) w steps) = S (uuids w) ∧
   settled r (foldl (lib_step r) w steps)).
Proof.
  revert w. induction steps as [|s steps IH]; intros w; simpl; [by left|].
  destruct s; simpl.
  - destruct (assign_session_cases r w)
      as [->|(t & sid & w1 & Ht & Hnone & Hw1 & Heq)]; [apply IH|].
    assert (settled r (assign_session r w)) as Hset.
    { rewrite Heq. cbv zeta.
      assert (heap w1 = heap w) as Hh
        by (destruct Hw1 as [(_&_&->)|[_ ->]]; done).
      assert (settled r (set_heap <[r := {| sessionIdGenerator :=
                                              sessionIdGenerator t;
                                            sessionId := Some sid |}]> w1))
        as Hs'.
      { intros t'. simpl. rewrite Hh.
        rewrite list_lookup_insert_eq by (by eapply lookup_lt_Some).
        intros [= <-]. left. by eexists. }
      by destruct (truthy (Some sid)). }
    assert (uuids (assign_session r w) = uuids w ∨
            uuids (assign_session r w) = S (uuids w)) as Hu.
    { rewrite Heq. cbv zeta.
      destruct Hw1 as [(_ & _ & ->)|[_ ->]];
        destruct (truthy (Some sid)); simpl; auto. }
    destruct (settled_steps r steps _ Hset) as [Hu' Hs'].
    rewrite Hu'. destruct Hu as [->| ->]; [by left|by right].
  - destruct (IH (onclose r w)) as [Hu|[Hu Hs]];
      rewrite uuids_onclose in Hu; [by left|by right].
Qed.

Lemma uuids_lib_effect_once c r w :
  uuids w ≤ uuids (lib_effect c r w) ≤ S (uuids w).
Proof.
  unfold lib_effect.
  destruct (uuids_steps_once r (lr_steps (lib c r w))
              (log (call_event c r) w)) as [->|[-> _]]; simpl; lia.
Qed.

Lemma uuids_two_calls c1 c2 r w :
  uuids w ≤ uuids (lib_effect c2 r (lib_effect c1 r w)) ≤ S (uuids w).
Proof.
  pose proof (uuids_lib_effect_once c2 r (lib_effect c1 r w)) as H2.
  assert (uuids (lib_effect c1 r w) = uuids w ∨
          (uuids (lib_effect c1 r w) = S (uuids w) ∧
           settled r (lib_effect c1 r w))) as [H1|[H1 Hset]].
  { unfold lib_effect.
    destruct (uuids_steps_once r (lr_steps (lib c1 r w))
                (log (call_event c1 r) w)) as [->|[-> ?]]; auto. }
  - lia.
  - destruct (settled_lib_effect c2 r _ Hset) as [-> _]. lia.
Qed.

Lemma uuids_gracefulShutdown ks w :
  registry_wf w → uuids (gracefulShutdown ks w) = uuids w.
Proof.
  unfold gracefulShutdown. revert w.
  induction ks as [|k ks IH]; intros w Hwf; simpl; [done|].
  rewrite IH by (by apply registry_wf_shutdown_iteration).
  unfold shutdown_iteration.
  destruct (transports w !! k) as [r|] eqn:Hk; [|done].
  destruct (settled_lib_effect CallClose r w) as [Hu _];
    [by eapply registered_settled|].
  by destruct (lr_raises _).
Qed.

Lemma post_route_Case1_inv ctx w :
  post_route ctx w = Case1 →
  ∃ sid, req_sessionId ctx = Some sid ∧ truthy (Some sid) = true ∧
         ((∃ r, transports w !! sid = Some r) ∨
          (transports w !! sid = None ∧ inherited sid = true)).
Proof.
  unfold post_route. destruct (req_sessionId ctx) as [sid|] eqn:Hs.
  - destruct (truthy (Some sid)) eqn:Ht; simpl.
    + destruct (transports w !! sid) as [r|] eqn:Hr.
      * intros _. exists sid. eauto.
      * destruct (inherited sid) eqn:Hi.
        -- intros _. exists sid. eauto.
        -- rewrite bool_decide_eq_false_2 by (by intros [? ?]). simpl.
           destruct (isInitializeRequest (req_body ctx)); done.
    + destruct (isInitializeRequest (req_body ctx)); done.
  - simpl. destruct (isInitializeRequest (req_body ctx)); done.
Qed.

Lemma uuids_stream_try m ctx w :
  registry_wf w → uuids (world (stream_try m ctx (start w)).2) = uuids w.
Proof.
  intros Hwf. unfold stream_try.
  unfold mbind at 1, M_bind at 1, getW at 1. simpl.
  destruct (negb _ || negb _); [done|].
  destruct (req_sessionId ctx) as [sid|]; [|done].
  destruct (registry_get (Some sid) w) as [[r|]|] eqn:Hg; [|done..].
  apply registry_get_Stored in Hg.
  unfold_M. simpl.
  destruct (settled_lib_effect (CallHandleRequest m None) r w) as [Hu _];
    [by eapply registered_settled|].
  by destruct (lr_raises _).
Qed.

(** The world after a POST of the second branch. *)
Lemma world_post_case2 rev ctx w :
  post_route ctx w = Case2 →
  let r := length (heap w) in
  let w1 := lib_effect CallConnect r (alloc GenRandomUUID w) in
  world (post_try rev ctx (start w)).2 =
    if lr_raises (lib CallConnect r (alloc GenRandomUUID w)) then w1
    else lib_effect (CallHandleRequest POST (Some (req_body ctx))) r w1.
Proof.
  intros Hroute r w1. unfold post_try.
  unfold mbind at 1, M_bind at 1, getW at 1. simpl.
  rewrite Hroute. unfold_M. simpl. fold r. fold w1.
  destruct (lr_raises (lib CallConnect r (alloc GenRandomUUID w))); simpl;
    [done|].
  destruct (lr_raises _); simpl; [done|]. unfold modifyK.
  destruct (transport_sessionId _ _) as [[|? ?]|]; simpl;
    destruct rev; simpl; try destruct (negb _); done.
Qed.

Lemma uuids_post_case2 rev ctx w :
  post_route ctx w = Case2 →
  uuids w ≤ uuids (world (post_try rev ctx (start w)).2) ≤ S (uuids w).
Proof.
  intros Hroute. rewrite world_post_case2 by done.
  pose proof (uuids_lib_effect_once CallConnect (length (heap w))
                (alloc GenRandomUUID w)) as Hb1.
  pose proof (uuids_two_calls CallConnect
                (CallHandleRequest POST (Some (req_body ctx)))
                (length (heap w)) (alloc GenRandomUUID w)) as Hb.
  change (uuids (alloc GenRandomUUID w)) with (uuids w) in Hb1, Hb.
  by destruct (lr_raises _).
Qed.

(** X13. Fresh ids are consumed only by initialization requests.  In a
    reachable world, a POST that takes the second branch makes at most
    one call of [randomUUID()]; every other POST, every GET and DELETE,
    the close callback and the shutdown loop make none, whatever
    callbacks the SDK fires. *)
Theorem only_initialize_draws_uuid rev ctx w :
  reachable w →
  let w' := (serve (post_mcp rev ctx) w).2 in
  (post_route ctx w = Case2 → uuids w ≤ uuids w' ≤ S (uuids w)) ∧
  (post_route ctx w ≠ Case2 → uuids w' = uuids w) ∧
  uuids (serve (get_mcp ctx) w).2 = uuids w ∧
  uuids (serve (delete_mcp ctx) w).2 = uuids w ∧
  (∀ r, uuids (onclose r w) = uuids w) ∧
  (∀ ks, uuids (gracefulShutdown ks w) = uuids w).
Proof.
  intros Hreach w'.
  pose proof (reachable_registry_wf w Hreach) as Hwf.
  split; [|split; [|split; [|split; [|split]]]].
  - intros Hroute. subst w'. unfold serve. simpl. rewrite world_post_mcp.
    by apply uuids_post_case2.
  - intros Hroute. subst w'.
    destruct (post_route ctx w) eqn:Hr; [| done | | |].
    + apply post_route_Case1_inv in Hr as (sid & Hs & Ht & [[r Hk]|[Hk Hi]]).
      * rewrite (world_post_hit rev ctx w sid r) by done.
        by apply settled_lib_effect, (registered_settled w sid).
      * by rewrite (serve_post_inherited rev ctx w sid).
    + apply post_route_Case3_undefined in Hr as (sid & Hs & Ht & Hk).
      rewrite (world_post_miss rev ctx w sid) by done.
      assert (settled (length (heap w)) (alloc (GenFixed sid) w)) as Hset.
      { intros t. simpl. rewrite lookup_app_r by done.
        rewrite Nat.sub_diag. intros [= <-]. right. by eexists. }
      destruct (settled_lib_effect CallConnect _ _ Hset) as [Hu1 Hs1].
      destruct (lr_raises _); [done|].
      destruct (settled_lib_effect
                  (CallHandleRequest POST (Some (req_body ctx)))
                  (length (heap w))
                  (log (EvPut ByHandler sid (length (heap w)))
                     (set_transports <[sid := length (heap w)]>
                        (lib_effect CallConnect (length (heap w))
                           (alloc (GenFixed sid) w))))) as [Hu2 _]; [done|].
      by rewrite Hu2.
    + unfold serve. simpl. rewrite world_post_mcp. unfold post_try.
      unfold mbind at 1, M_bind at 1, getW at 1. simpl. by rewrite Hr.
    + unfold serve. simpl. rewrite world_post_mcp. unfold post_try.
      unfold mbind at 1, M_bind at 1, getW at 1. simpl. by rewrite Hr.
  - unfold serve, get_mcp; simpl. rewrite world_stream.
    by apply uuids_stream_try.
  - unfold serve, delete_mcp; simpl. rewrite world_stream.
    by apply uuids_stream_try.
  - intros r. apply uuids_onclose.
  - intros ks. by apply uuids_gracefulShutdown.
Qed.

(** ** The CORS middleware in front of the handlers *)

Section Oblivious.

Lemma oblivious_ret {A} (a : A) : oblivious (mret a).
Proof. by intros hs st. Qed.

Lemma oblivious_throw {A} : oblivious (@throw A).
Proof. by intros hs st. Qed.

Lemma oblivious_bind {A B} (m : M A) (f : A → M B) :
  oblivious m → (∀ a, oblivious (f a)) → oblivious (m ≫= f).
Proof.
  intros Hm Hf hs st. unfold mbind, M_bind. rewrite (Hm hs st).
  destruct (m st) as [[a|] st']; simpl; [apply Hf|done].
Qed.

Lemma oblivious_try_catch (m handler : M unit) :
  oblivious m → oblivious handler → oblivious (try_catch m handler).
Proof.
  intros Hm Hh hs st. unfold try_catch. rewrite (Hm hs st).
  destruct (m st) as [[a|] st']; simpl; [done|apply Hh].
Qed.

Lemma oblivious_getW : oblivious getW.
Proof. by intros hs st. Qed.

Lemma oblivious_headersSent : oblivious headersSent.
Proof. by intros hs st. Qed.

Lemma oblivious_defined {A} (o : option A) : oblivious (defined o).
Proof. destruct o; by intros hs st. Qed.

Lemma oblivious_modifyW f : oblivious (modifyW f).
Proof. by intros hs st. Qed.

Lemma oblivious_construct g : oblivious (construct g).
Proof. by intros hs st. Qed.

Lemma oblivious_call c r : oblivious (call c r).
Proof. intros hs st. unfold call. simpl. by destruct (lr_raises _). Qed.

Lemma oblivious_set_status n : oblivious (set_status n).
Proof. by intros hs st. Qed.

Lemma oblivious_set_body b : oblivious (set_body b).
Proof. by intros hs st. Qed.

Lemma oblivious_set_respond b : oblivious (set_respond b).
Proof. by intros hs st. Qed.

Lemma oblivious_ctx_set name value : oblivious (ctx_set name value).
Proof.
  intros hs st. unfold ctx_set, modifyK, preset, with_headers. simpl.
  by rewrite app_assoc.
Qed.

End Oblivious.

Ltac oblivious_step :=
  first
    [ apply oblivious_ret | apply oblivious_throw | apply oblivious_getW
    | apply oblivious_headersSent | apply oblivious_defined
    | apply oblivious_modifyW | apply oblivious_construct
    | apply oblivious_call | apply oblivious_set_status
    | apply oblivious_set_body | apply oblivious_set_respond
    | apply oblivious_ctx_set
    | apply oblivious_bind; [|intros ?]
    | apply oblivious_try_catch
    | match goal with
      | |- oblivious (match ?x with _ => _ end) => destruct x
      | |- oblivious (if ?x then _ else _) => destruct x
      end ].

Lemma oblivious_post_catch : oblivious post_catch.
Proof. unfold post_catch. repeat oblivious_step. Qed.

Lemma oblivious_post_mcp rev ctx : oblivious (post_mcp rev ctx).
Proof.
  unfold post_mcp, post_try, post_tail, post_case3_create, put_direct,
    call_on.
  pose proof oblivious_post_catch. repeat oblivious_step; done.
Qed.

Lemma oblivious_post_mcp_first ctx : oblivious (post_mcp_first ctx).
Proof.
  unfold post_mcp_first, post_try_first, call_on.
  pose proof oblivious_post_catch. repeat oblivious_step; done.
Qed.

Lemma oblivious_stream m ctx message :
  oblivious (try_catch (stream_try m ctx) (stream_catch message)).
Proof. unfold stream_try, stream_catch, call_on. repeat oblivious_step. Qed.

Lemma cors_middleware_runs_next method next w :
  method ≠ "OPTIONS" →
  cors_middleware method next (start w) = next (preset cors_headers (start w)).
Proof.
  intros Hne. unfold cors_middleware.
  apply String.eqb_neq in Hne. rewrite Hne. done.
Qed.

Lemma requestLogger_transparent (m : M unit) st :
  (m st).1 = Ret () → requestLogger m st = m st.
Proof. apply try_catch_transparent. Qed.

(** X14. The middleware chain of the logger revision in front of its
    [/mcp] handlers: CORS, then the request logger, then the
    error-handling [try]/[catch].  An OPTIONS request is answered by the
    CORS middleware alone, with status 200 and its seven headers:
    whatever comes after it is not run and the world is untouched.  For
    every other method the chain does to the world what the handler does
    on its own, and the answer is the handler's own answer with the seven
    CORS header sets in front of the handler's, whatever the [catch]
    block [outer] of the error-handling middleware is: it is never
    entered, and no handler depends on header sets made before it. *)
Theorem cors_middleware_composes method ctx outer w :
  (∀ next,
     serve (cors_middleware "OPTIONS" next) w =
       ({| ctx_status := 200; ctx_body := BodyUnset;
           ctx_headers := cors_headers; ctx_respond := true;
           res_headersSent := false |}, w)) ∧
  (method ≠ "OPTIONS" →
   ∀ h, h ∈ [post_mcp RevLogger ctx; get_mcp ctx; delete_mcp ctx] →
     serve (cors_middleware method (requestLogger (try_catch h outer))) w =
       (with_headers cors_headers (serve h w).1, (serve h w).2)).
Proof.
  split; [done|]. intros Hne h Hin.
  assert (oblivious h ∧ ∀ st, (h st).1 = Ret ()) as [Hob Hret].
  { repeat (apply elem_of_cons in Hin as [->|Hin]);
      [split; [apply oblivious_post_mcp
              |intros; apply try_catch_returns, post_catch_returns]
      |split; [apply oblivious_stream
              |intros; apply try_catch_returns, stream_catch_returns]..
      |by apply elem_of_nil in Hin]. }
  unfold serve. rewrite cors_middleware_runs_next by done.
  rewrite requestLogger_transparent
    by (rewrite try_catch_transparent; apply Hret).
  rewrite try_catch_transparent by apply Hret.
  by rewrite (Hob cors_headers (start w)).
Qed.

End Properties.

(** ** The tools *)

Section ToolProperties.

Context {env : ToolEnv}.

Lemma attempted_app tr1 tr2 :
  attempted (tr1 ++ tr2) = attempted tr1 ++ attempted tr2.
Proof. apply omap_app. Qed.

Lemma delivered_app tr1 tr2 :
  delivered (tr1 ++ tr2) = delivered tr1 ++ delivered tr2.
Proof. apply omap_app. Qed.

Lemma slept_app tr1 tr2 : slept (tr1 ++ tr2) = slept tr1 ++ slept tr2.
Proof. apply omap_app. Qed.

Lemma logged_app tr1 tr2 : logged (tr1 ++ tr2) = logged tr1 ++ logged tr2.
Proof. apply omap_app. Qed.

Lemma stream_turn_attempted interval counter tr :
  attempted (stream_turn interval counter tr) =
    attempted tr ++ [NotePeriodic counter].
Proof.
  unfold stream_turn, sendNotification, sleep, tool_log.
  destruct (send_resolves _);
    rewrite !attempted_app; simpl; by rewrite ?app_nil_r.
Qed.

Lemma stream_turn_slept interval counter tr :
  slept (stream_turn interval counter tr) = slept tr ++ [interval].
Proof.
  unfold stream_turn, sendNotification, sleep, tool_log.
  destruct (send_resolves _);
    rewrite !slept_app; simpl; by rewrite ?app_nil_r.
Qed.

Lemma stream_turn_delivered_or_logged interval counter tr :
  length (delivered (stream_turn interval counter tr)) +
  length (logged (stream_turn interval counter tr)) =
    S (length (delivered tr) + length (logged tr)).
Proof.
  unfold stream_turn, sendNotification, sleep, tool_log.
  destruct (send_resolves _);
    rewrite !delivered_app, !logged_app, !length_app; simpl; lia.
Qed.

Lemma stream_continues_counting count counter :
  ¬ (count == 0)%Q →
  stream_continues count counter = bool_decide (counter < Qceiling count)%Z.
Proof.
  intros Hne. unfold stream_continues.
  destruct (Qeq_bool count 0) eqn:He; [by apply Qeq_bool_iff in He|].
  simpl. case_bool_decide as Hlt.
  - apply negb_true_iff, not_true_iff_false. intros Hle%Qle_bool_iff.
    apply Qceiling_resp_le in Hle. rewrite Qceiling_Z in Hle. lia.
  - apply negb_false_iff, Qle_bool_iff.
    eapply Qle_trans; [apply Qle_ceiling|]. rewrite <- Zle_Qle. lia.
Qed.

Lemma stream_loop_counts fuel interval count counter tr :
  ¬ (count == 0)%Q → (Qceiling count ≤ max_exact)%Z →
  Z.to_nat (Qceiling count - counter) ≤ fuel →
  ∃ tr',
    stream_loop fuel interval count counter tr = Some tr' ∧
    attempted tr' =
      attempted tr ++
      (NotePeriodic <$> seqZ (counter + 1) (Qceiling count - counter)) ∧
    slept tr' =
      slept tr ++ replicate (Z.to_nat (Qceiling count - counter)) interval ∧
    length (delivered tr') + length (logged tr') =
      length (delivered tr) + length (logged tr) +
      Z.to_nat (Qceiling count - counter).
Proof.
  intros Hne Hmax. revert counter tr.
  assert (∀ counter tr, (Qceiling count ≤ counter)%Z → ∀ fuel',
    ∃ tr',
      stream_loop fuel' interval count counter tr = Some tr' ∧
      attempted tr' =
        attempted tr ++
        (NotePeriodic <$> seqZ (counter + 1) (Qceiling count - counter)) ∧
      slept tr' =
        slept tr ++ replicate (Z.to_nat (Qceiling count - counter)) interval ∧
      length (delivered tr') + length (logged tr') =
        length (delivered tr) + length (logged tr) +
        Z.to_nat (Qceiling count - counter)) as Hstop.
  { intros counter tr Hle fuel'. exists tr.
    replace (Z.to_nat (Qceiling count - counter)) with 0 by lia.
    rewrite seqZ_nil by lia. simpl. rewrite !app_nil_r.
    split_and!; [|done..|lia].
    destruct fuel'; simpl; rewrite stream_continues_counting by done;
      by rewrite bool_decide_eq_false_2 by lia. }
  induction fuel as [|fuel IH]; intros counter tr Hfuel.
  { apply Hstop. lia. }
  destruct (decide (counter < Qceiling count)%Z) as [Hlt|Hge];
    [|apply Hstop; lia].
  simpl. rewrite stream_continues_counting by done.
  rewrite bool_decide_eq_true_2 by done.
  assert (increment counter = (counter + 1)%Z) as ->.
  { unfold increment. by rewrite (proj2 (Z.ltb_lt _ _)) by lia. }
  destruct (IH (counter + 1)%Z (stream_turn interval (counter + 1) tr))
    as (tr' & Hrun & Hatt & Hslept & Hlen); [lia|].
  exists tr'. split; [done|].
  rewrite Hatt, Hslept, Hlen.
  rewrite stream_turn_attempted, stream_turn_slept.
  pose proof (stream_turn_delivered_or_logged interval (counter + 1) tr).
  rewrite (seqZ_cons (counter + 1) (Qceiling count - counter)) by lia.
  replace (Z.to_nat (Qceiling count - counter))
    with (S (Z.to_nat (Qceiling count - (counter + 1)))) by lia.
  replace (Z.pred (Qceiling count - counter))
    with (Qceiling count - (counter + 1))%Z by lia.
  replace (Z.succ (counter + 1)) with (counter + 1 + 1)%Z by lia.
  simpl. rewrite <- !app_assoc. simpl. split_and!; [done..|lia].
Qed.

Lemma increment_bounded counter :
  (counter ≤ max_exact)%Z → (increment counter ≤ max_exact)%Z.
Proof. unfold increment. destruct (Z.ltb_spec counter max_exact); lia. Qed.

Lemma stream_loop_endless fuel interval count counter tr :
  (count == 0)%Q ∨ (inject_Z max_exact < count)%Q →
  (counter ≤ max_exact)%Z →
  stream_loop fuel interval count counter tr = None.
Proof.
  intros Hcount. revert counter tr.
  induction fuel as [|fuel IH]; intros counter tr Hle; simpl.
  all: assert (stream_continues count counter = true) as ->.
  1,3: unfold stream_continues; destruct Hcount as [H0|Hbig];
    [by rewrite (proj2 (Qeq_bool_iff _ _) H0)|];
    apply orb_true_iff; right;
    apply negb_true_iff, not_true_iff_false; intros Hq%Qle_bool_iff;
    apply (Qlt_not_le _ _ Hbig); eapply Qle_trans; [exact Hq|];
    by rewrite <- Zle_Qle.
  - done.
  - apply IH. by apply increment_bounded.
Qed.

(** X15. [multi-greet] has no [try] around its sends: it returns its
    greeting exactly when the three sends resolve, and otherwise raises at
    the first send that is rejected, which is then the last thing the tool
    did (no later sleep or send).  The notifications delivered are the
    first one, two or three of its fixed sequence, in order. *)
Theorem multi_greet_stops_at_first_failure name tr :
  let n := length (attempted tr) in
  let notes := [NoteText ("Starting multi-greet for " ++ name);
                NoteText ("Sending first greeting to " ++ name);
                NoteText ("Sending second greeting to " ++ name)] in
  let out := multi_greet name tr in
  (out.1 = ToolRet (text_result ("Good morning, " ++ name ++ "!")) ↔
     send_resolves n && send_resolves (n + 1) && send_resolves (n + 2) = true) ∧
  (out.1 = ToolRaise ↔
     send_resolves n && send_resolves (n + 1) && send_resolves (n + 2) = false) ∧
  (∃ k, k ≤ 3 ∧
     delivered out.2 = delivered tr ++ take k notes ∧
     attempted out.2 = attempted tr ++ take (S k `min` 3) notes ∧
     (out.1 = ToolRaise → k < 3 ∧ ∃ level note tr0,
        notes !! k = Some note ∧
        out.2 = tr0 ++ [ToolSendFailed level note])).
Proof.
  intros n notes out. subst out notes.
  unfold multi_greet, sendNotification, sleep, tool_log.
  rewrite !attempted_app. simpl. rewrite !app_nil_r. fold n.
  destruct (send_resolves n) eqn:H1; simpl.
  2:{ split_and!; [by split|by split|]. exists 0. split_and!; [lia|..].
      - rewrite !delivered_app. simpl. by rewrite !app_nil_r.
      - rewrite !attempted_app. simpl. by rewrite !app_nil_r.
      - intros _. split; [lia|]. by eexists "debug", _, _. }
  rewrite !attempted_app. simpl. rewrite !app_nil_r, !length_app. simpl.
  fold n. destruct (send_resolves (n + 1)) eqn:H2; simpl.
  2:{ split_and!; [by split|by split|]. exists 1. split_and!; [lia|..].
      - rewrite !delivered_app. simpl. by rewrite !app_nil_r.
      - rewrite !attempted_app. simpl. by rewrite !app_nil_r, <- !app_assoc.
      - intros _. split; [lia|]. by eexists "info", _, _. }
  rewrite !attempted_app. simpl. rewrite !app_nil_r, !length_app. simpl.
  fold n. replace (n + 1 + 1) with (n + 2) by lia.
  destruct (send_resolves (n + 2)) eqn:H3; simpl.
  2:{ split_and!; [by split|by split|]. exists 2. split_and!; [lia|..].
      - rewrite !delivered_app. simpl. by rewrite !app_nil_r, <- !app_assoc.
      - rewrite !attempted_app. simpl. by rewrite !app_nil_r, <- !app_assoc.
      - intros _. split; [lia|]. by eexists "info", _, _. }
  split_and!; [by split|by split|]. exists 3. split_and!; [lia|..].
  - rewrite !delivered_app. simpl. by rewrite !app_nil_r, <- !app_assoc.
  - rewrite !attempted_app. simpl. by rewrite !app_nil_r, <- !app_assoc.
  - done.
Qed.

(** One turn of the loop: the send, the log line when it was rejected,
    then the sleep. *)
Lemma stream_turn_events interval counter tr :
  stream_turn interval counter tr =
    tr ++
    if send_resolves (length (attempted tr))
    then [ToolSent "info" (NotePeriodic counter); ToolSlept interval]
    else [ToolSendFailed "info" (NotePeriodic counter);
          ToolLogged "error" "Error sending notification";
          ToolSlept interval].
Proof.
  unfold stream_turn, sendNotification, sleep, tool_log.
  destruct (send_resolves _); by rewrite <- ?app_assoc.
Qed.

Lemma stream_loop_turns fuel interval count counter tr tr' :
  ¬ (count == 0)%Q → (Qceiling count ≤ max_exact)%Z →
  stream_loop fuel interval count counter tr = Some tr' →
  ∃ turns,
    tr' = tr ++ concat turns ∧
    length turns = Z.to_nat (Qceiling count - counter) ∧
    ∀ i evs, turns !! i = Some evs →
      evs =
        if send_resolves (length (attempted tr) + i)
        then [ToolSent "info" (NotePeriodic (counter + 1 + Z.of_nat i));
              ToolSlept interval]
        else [ToolSendFailed "info" (NotePeriodic (counter + 1 + Z.of_nat i));
              ToolLogged "error" "Error sending notification";
              ToolSlept interval].
Proof.
  intros Hne Hmax. revert counter tr.
  induction fuel as [|fuel IH]; intros counter tr; simpl;
    rewrite stream_continues_counting by done; case_bool_decide as Hlt.
  - done.
  - intros [= <-]. exists []. simpl. rewrite app_nil_r.
    split; [done|]. split; [lia|]. intros i evs Hi. by destruct i.
  - assert (increment counter = (counter + 1)%Z) as ->.
    { unfold increment. by rewrite (proj2 (Z.ltb_lt _ _)) by lia. }
    intros Hrun. destruct (IH _ _ Hrun) as (turns & Htr' & Hlen & Hturns).
    exists ((if send_resolves (length (attempted tr))
             then [ToolSent "info" (NotePeriodic (counter + 1));
                   ToolSlept interval]
             else [ToolSendFailed "info" (NotePeriodic (counter + 1));
                   ToolLogged "error" "Error sending notification";
                   ToolSlept interval]) :: turns).
    split.
    { rewrite Htr', stream_turn_events. simpl. by rewrite <- app_assoc. }
    split; [simpl; lia|].
    intros [|i] evs Hi; simpl in Hi.
    + injection Hi as <-. by rewrite Nat.add_0_r, Z.add_0_r.
    + rewrite (Hturns i evs Hi).
      rewrite stream_turn_attempted, length_app.
      simpl.
      replace (length (attempted tr) + 1 + i)
        with (length (attempted tr) + S i) by lia.
      by replace (counter + 1 + 1 + Z.of_nat i)%Z
        with (counter + 1 + Z.of_nat (S i))%Z by lia.
  - intros [= <-]. exists []. simpl. rewrite app_nil_r.
    split; [done|]. split; [lia|]. intros i evs Hi. by destruct i.
Qed.

(** X16. [start-notification-stream] with a [count] other than 0 and at
    most 2^53 returns, whatever [sendNotification] does, and answers
    with its fixed text.  What it did is exactly ceil(count) turns (none
    for a negative count), one after the other: turn number i hands
    notification number i to [sendNotification] and then sleeps
    [interval]; when the send was rejected, the error is logged between
    the two and the loop goes on.  So the notifications handed over are
    numbered 1, 2, ... in order, there is one sleep of [interval] after
    each, and every turn either delivers or logs. *)
Theorem notification_stream_sends_count fuel interval count tr :
  ¬ (count == 0)%Q → (Qceiling count ≤ max_exact)%Z →
  Z.to_nat (Qceiling count) ≤ fuel →
  ∃ tr' turns,
    start_notification_stream fuel interval count tr =
      Some (ToolRet (text_result
              ("Started sending periodic notifications every " ++
               number_to_string interval ++ "ms")), tr') ∧
    tr' = tr ++ concat turns ∧
    length turns = Z.to_nat (Qceiling count) ∧
    (∀ i evs, turns !! i = Some evs →
       evs =
         if send_resolves (length (attempted tr) + i)
         then [ToolSent "info" (NotePeriodic (Z.of_nat i + 1));
               ToolSlept interval]
         else [ToolSendFailed "info" (NotePeriodic (Z.of_nat i + 1));
               ToolLogged "error" "Error sending notification";
               ToolSlept interval]) ∧
    attempted tr' =
      attempted tr ++ (NotePeriodic <$> seqZ 1 (Qceiling count)) ∧
    slept tr' = slept tr ++ replicate (Z.to_nat (Qceiling count)) interval ∧
    length (delivered tr') + length (logged tr') =
      length (delivered tr) + length (logged tr) + Z.to_nat (Qceiling count).
Proof.
  intros Hne Hmax Hfuel.
  destruct (stream_loop_counts fuel interval count 0 tr)
    as (tr' & Hrun & Hatt & Hslept & Hlen); [done|done|..].
  { by rewrite Z.sub_0_r. }
  destruct (stream_loop_turns fuel interval count 0 tr tr' Hne Hmax Hrun)
    as (turns & Htr' & Hturns & Hshape).
  rewrite Z.sub_0_r in *. exists tr', turns.
  unfold start_notification_stream. rewrite Hrun.
  split; [done|]. split; [done|]. split; [done|]. split; [|done].
  intros i evs Hi. rewrite (Hshape i evs Hi).
  by replace (0 + 1 + Z.of_nat i)%Z with (Z.of_nat i + 1)%Z by lia.
Qed.

(** X17. With [count] 0 the loop condition [count === 0 || ...] holds in
    every turn, and with a [count] above 2^53 the counter stops at 2^53
    below it: in both cases the tool never returns, for any amount of
    fuel.  (The schema describes [count] as "0 for 100".) *)
Theorem notification_stream_never_returns fuel interval count tr :
  (count == 0)%Q ∨ (inject_Z max_exact < count)%Q →
  start_notification_stream fuel interval count tr = None.
Proof.
  intros Hcount. unfold start_notification_stream.
  rewrite stream_loop_endless; [done|done|]. unfold max_exact. lia.
Qed.

End ToolProperties.

(** ** The theorems at concrete requests *)

Lemma served_one_session : served (sdk := sample_sdk) one_session.
Proof. apply served_post, served_initial. Qed.

Lemma served_two_sessions : served (sdk := sample_sdk) two_sessions.
Proof. apply served_post, served_one_session. Qed.

Lemma served_just_inserted : served (sdk := sample_sdk) just_inserted.
Proof.
  exact (served_post_inserted (sample_request (Some "abc") ToolCall)
           one_session served_one_session eq_refl).
Qed.

Lemma reachable_one_session : reachable (sdk := sample_sdk) one_session.
Proof. apply served_reachable, served_one_session. Qed.

Lemma reachable_just_inserted : reachable (sdk := sample_sdk) just_inserted.
Proof. apply served_reachable, served_just_inserted. Qed.

Lemma post_hit_reuses_transport_witness :
  let ctx := sample_request (Some "uuid-0") ToolCall in
  transports one_session !! "uuid-0" = Some 0 ∧
  post_route ctx one_session = Case1 ∧
  (serve (post_mcp RevLogger ctx) one_session).2 =
    lib_effect (sdk := sample_sdk) (CallHandleRequest POST (Some ToolCall))
      0 one_session ∧
  length (heap (serve (post_mcp RevLogger ctx) one_session).2) = 1 ∧
  transports (serve (post_mcp RevLogger ctx) one_session).2 =
    transports one_session.
Proof.
  intros ctx. split; [reflexivity|].
  destruct (post_hit_reuses_transport RevLogger ctx one_session "uuid-0" 0
              reachable_one_session eq_refl eq_refl) as (H1 & H2 & H3 & H4).
  split; [exact H1|]. split; [exact H2|]. split; [exact H3|].
  apply H4. intros H. by apply elem_of_nil in H.
Defined.

Lemma post_no_token_not_initialize_witness :
  let ctx := sample_request None ToolCall in
  post_route ctx one_session = Case4 ∧
  serve (post_mcp RevDebug ctx) one_session =
    ({| ctx_status := 400;
        ctx_body :=
          BodyJsonRpcError "2.0" (-32000)
            "Bad Request: No valid session ID provided" None;
        ctx_headers := []; ctx_respond := true; res_headersSent := false |},
     one_session).
Proof.
  intros ctx.
  exact (post_no_token_not_initialize RevDebug ctx one_session
           eq_refl eq_refl).
Defined.

Lemma post_miss_creates_session_with_client_id_witness :
  let ctx := sample_request (Some "abc") ToolCall in
  let bad := sample_request (Some "constructor") ToolCall in
  (post_route ctx one_session = Case3 ∧
   (post_case3_create ctx (start one_session)).1 = Ret 1 ∧
   world (post_case3_create ctx (start one_session)).2 = just_inserted ∧
   trace just_inserted =
     trace one_session ++
     [EvConstruct 1 (GenFixed "abc"); EvConnect 1; EvPut ByHandler "abc" 1] ∧
   length (heap just_inserted) = 2 ∧
   transports just_inserted !! "abc" = Some 1 ∧
   (serve (post_mcp RevLogger ctx) one_session).2 =
     lib_effect (sdk := sample_sdk) (CallHandleRequest POST (Some ToolCall))
       1 just_inserted) ∧
  (post_route bad one_session = Case1 ∧
   serve (post_mcp RevLogger bad) one_session =
     ({| ctx_status := 500;
         ctx_body :=
           BodyJsonRpcError "2.0" (-32603) "Internal server error" None;
         ctx_headers := []; ctx_respond := true; res_headersSent := false |},
      one_session) ∧
   length (heap (serve (post_mcp RevLogger bad) one_session).2) = 1).
Proof.
  intros ctx bad. split.
  - destruct (post_miss_creates_session_with_client_id RevLogger ctx
                one_session "abc" eq_refl eq_refl eq_refl) as [H _].
    destruct (H eq_refl eq_refl) as (H1 & H2 & H3 & _ & H5 & _ & H7 & H8).
    split; [exact H1|]. split; [exact H2|]. split; [exact H3|].
    split; [reflexivity|]. split; [exact H5|]. split; [exact H7|exact H8].
  - destruct (post_miss_creates_session_with_client_id RevLogger bad
                one_session "constructor" eq_refl eq_refl eq_refl) as [_ H].
    destruct (H eq_refl) as [H1 H2].
    split; [exact H1|]. split; [exact H2|]. reflexivity.
Defined.


(** C5 as stated fails: the transport of the session ["abc"], created by
    the third POST branch for an initialize body, is stored twice, once
    by the handler itself and once by its callback. *)
Lemma session_stored_by_handler_and_callback :
  transports two_sessions !! "abc" = Some 1 ∧
  count_puts ByHandler 1 (trace two_sessions) = 1 ∧
  count_puts ByCallback 1 (trace two_sessions) = 1 ∧
  ¬ stored_once_by_callback_only two_sessions 1.
Proof.
  split; [reflexivity|]. split; [reflexivity|]. split; [reflexivity|].
  intros [_ H]. vm_compute in H. discriminate H.
Qed.

Lemma session_stored_once_per_writer_witness :
  heap two_sessions !! 0 =
    Some {| sessionIdGenerator := GenRandomUUID;
            sessionId := Some "uuid-0" |} ∧
  count_puts ByCallback 0 (trace two_sessions) = 1 ∧
  count_puts ByHandler 0 (trace two_sessions) ≤ 1 ∧
  stored_once_by_callback_only two_sessions 0.
Proof.
  split; [reflexivity|].
  destruct (session_stored_once_per_writer two_sessions 0 _
              served_two_sessions eq_refl) as (H1 & H2 & _ & H4).
  split; [exact H1|]. split; [exact H2|].
  exact (H4 "uuid-0" eq_refl eq_refl).
Defined.




Lemma close_path_idempotent_witness :
  onclose 0 (onclose 0 one_session) = onclose 0 one_session ∧
  transports session_closed !! "uuid-0" = None ∧
  onclose 0 session_closed = session_closed.
Proof.
  destruct (close_path_idempotent (sdk := sample_sdk) 0 one_session)
    as (H1 & _).
  destruct (close_path_idempotent (sdk := sample_sdk) 0 session_closed)
    as (_ & _ & H3 & _).
  split; [exact H1|]. split; [reflexivity|].
  exact (H3 "uuid-0" eq_refl eq_refl).
Defined.

Lemma stream_requires_registered_session_witness :
  serve (get_mcp (sample_request (Some "unknown-id") ToolCall)) one_session =
    (invalid_session_response, one_session) ∧
  serve (delete_mcp (sample_request None ToolCall)) one_session =
    (invalid_session_response, one_session) ∧
  (serve (delete_mcp (sample_request (Some "uuid-0") ToolCall))
         one_session).2 =
    lib_effect (sdk := sample_sdk) (CallHandleRequest DELETE None)
      0 one_session ∧
  serve (get_mcp (sample_request (Some "constructor") ToolCall)) one_session =
    ({| ctx_status := 500; ctx_body := BodyText "Internal server error";
        ctx_headers := []; ctx_respond := true; res_headersSent := false |},
     one_session) ∧
  serve (delete_mcp (sample_request (Some "__proto__") ToolCall))
        one_session =
    ({| ctx_status := 500;
        ctx_body := BodyText "Error processing session termination";
        ctx_headers := []; ctx_respond := true; res_headersSent := false |},
     one_session).
Proof.
  destruct (stream_requires_registered_session
              (sample_request (Some "unknown-id") ToolCall) one_session)
    as (H1 & _).
  destruct (stream_requires_registered_session
              (sample_request None ToolCall) one_session) as (H2 & _).
  destruct (stream_requires_registered_session
              (sample_request (Some "uuid-0") ToolCall) one_session)
    as (_ & H3 & _).
  destruct (stream_requires_registered_session
              (sample_request (Some "constructor") ToolCall) one_session)
    as (_ & _ & H4).
  destruct (stream_requires_registered_session
              (sample_request (Some "__proto__") ToolCall) one_session)
    as (_ & _ & H5).
  split; [exact (proj1 (H1 eq_refl))|]. split; [exact (proj2 (H2 eq_refl))|].
  split; [exact (proj2 (H3 "uuid-0" 0 reachable_one_session eq_refl
                          eq_refl))|].
  split; [exact (proj1 (H4 "constructor" eq_refl eq_refl eq_refl))|].
  exact (proj2 (H5 "__proto__" eq_refl eq_refl eq_refl)).
Defined.

Lemma registry_keys_are_session_ids_witness :
  transport_sessionId 1 just_inserted = None ∧
  ∃ t, heap just_inserted !! 1 = Some t ∧
       (sessionId t = Some "abc" ∨
        (sessionId t = None ∧ sessionIdGenerator t = GenFixed "abc")).
Proof.
  split; [reflexivity|].
  exact (registry_keys_are_session_ids just_inserted "abc" 1
           reachable_just_inserted eq_refl).
Defined.

Lemma stream_handlers_never_insert_witness :
  let ctx := sample_request (Some "uuid-0") ToolCall in
  dom (transports (serve (get_mcp ctx) one_session).2) ⊆
    dom (transports one_session) ∧
  dom (transports (serve (delete_mcp ctx) one_session).2) ⊆
    dom (transports one_session).
Proof.
  intros ctx.
  destruct (stream_handlers_never_insert ctx one_session)
    as (_ & _ & H3 & H4).
  split.
  - apply H3. intros r H. by apply elem_of_nil in H.
  - apply H4. intros r H. apply list_elem_of_singleton in H. discriminate H.
Defined.

(** ** The further properties at concrete requests *)

Lemma served_first_first_session :
  served_first (sdk := sample_sdk) first_session.
Proof. apply served_first_post, served_first_initial. Qed.

Lemma mcp_handlers_never_throw_witness :
  let h := get_mcp (sample_request (Some "uuid-0") ToolCall) in
  (h (start one_session)).1 = Ret () ∧
  ∀ outer, try_catch h outer (start one_session) = h (start one_session).
Proof.
  intros h.
  apply (mcp_handlers_never_throw RevLogger
           (sample_request (Some "uuid-0") ToolCall) h).
  apply elem_of_cons; right. apply elem_of_cons; right.
  apply elem_of_cons; left. reflexivity.
Defined.

Lemma post_hit_response_witness :
  (serve (post_mcp RevLogger (sample_request (Some "uuid-0") ToolCall))
         one_session).1 =
    {| ctx_status := 404; ctx_body := BodyUnset; ctx_headers := [];
       ctx_respond := false; res_headersSent := true |}.
Proof.
  exact (post_hit_response RevLogger
           (sample_request (Some "uuid-0") ToolCall) one_session "uuid-0" 0
           reachable_one_session eq_refl eq_refl).
Defined.

Lemma stream_hit_response_witness :
  let ctx := sample_request (Some "uuid-0") ToolCall in
  let answer :=
    {| ctx_status := 404; ctx_body := BodyUnset; ctx_headers := [];
       ctx_respond := true; res_headersSent := true |} in
  (serve (get_mcp ctx) one_session).1 = answer ∧
  (serve (delete_mcp ctx) one_session).1 = answer.
Proof.
  intros ctx answer.
  exact (stream_hit_response ctx one_session "uuid-0" 0
           reachable_one_session eq_refl eq_refl).
Defined.

Lemma post_miss_connect_fails_witness :
  let ctx := @mkRequest connect_fails_sdk (Some "abc") ToolCall in
  let out := serve (post_mcp RevLogger ctx) initial_world in
  length (heap out.2) = 1 ∧
  transports out.2 = transports initial_world ∧
  ctx_status out.1 = 500 ∧
  ctx_body out.1 = internal_error.
Proof.
  intros ctx out.
  destruct (post_miss_connect_fails RevLogger ctx initial_world "abc"
              eq_refl eq_refl eq_refl eq_refl) as (_ & H2 & _ & H4 & H5).
  split; [exact H2|]. split; [exact (H4 eq_refl)|]. exact (H5 eq_refl).
Defined.

Lemma post_initialize_sdk_raises_witness :
  let ctx1 := @mkRequest connect_fails_sdk None Initialize in
  let ctx2 := @mkRequest handle_fails_sdk None Initialize in
  let out1 := serve (post_mcp RevLogger ctx1) initial_world in
  let out2 := serve (post_mcp RevLogger ctx2) initial_world in
  (ctx_headers out1.1 = [] ∧ ctx_respond out1.1 = true) ∧
  (ctx_headers out2.1 = [] ∧ ctx_respond out2.1 = true).
Proof.
  intros ctx1 ctx2 out1 out2. split.
  - destruct (post_initialize_sdk_raises RevLogger ctx1 initial_world
                eq_refl eq_refl) as [H _].
    destruct (H eq_refl) as (_ & H1 & H2). split; [exact H1|exact H2].
  - destruct (post_initialize_sdk_raises RevLogger ctx2 initial_world
                eq_refl eq_refl) as [_ H].
    destruct (H eq_refl eq_refl) as (_ & H1 & H2). split; [exact H1|exact H2].
Defined.

Lemma registry_no_aliasing_witness :
  transports one_session !! "uuid-0" = Some 0 ∧
  ("uuid-0" = "uuid-0" ∧ "uuid-0" ≠ EmptyString).
Proof.
  split; [reflexivity|].
  exact (registry_no_aliasing one_session "uuid-0" "uuid-0" 0
           reachable_one_session eq_refl eq_refl).
Defined.

Lemma session_id_is_stable_witness :
  transport_sessionId 0 one_session = Some "uuid-0" ∧
  transport_sessionId 0 two_sessions = Some "uuid-0".
Proof.
  split; [reflexivity|].
  apply (session_id_is_stable (sdk := sample_sdk) 0 "uuid-0" one_session
           eq_refl two_sessions).
  left. exists RevLogger, (sample_request (Some "abc") Initialize).
  reflexivity.
Defined.

Lemma request_touches_only_its_session_witness :
  let ctx := sample_request (Some "abc") ToolCall in
  transports (serve (post_mcp RevLogger ctx) one_session).2 !! "uuid-0" =
    Some 0 ∧
  transports (serve (get_mcp ctx) one_session).2 !! "uuid-0" = Some 0 ∧
  transports (serve (delete_mcp ctx) one_session).2 !! "uuid-0" = Some 0.
Proof.
  intros ctx.
  apply (request_touches_only_its_session RevLogger ctx one_session "abc"
           "uuid-0" reachable_one_session eq_refl eq_refl).
  discriminate.
Defined.

Lemma close_callback_removes_own_entry_witness :
  transports one_session !! "uuid-0" = Some 0 ∧
  transports (onclose 0 one_session) =
    delete "uuid-0" (transports one_session).
Proof.
  split; [reflexivity|].
  destruct (close_callback_removes_own_entry one_session "uuid-0" 0
              reachable_one_session eq_refl) as [[_ H]|[H _]].
  - exact H.
  - vm_compute in H. discriminate H.
Defined.

Lemma delete_then_requests_witness :
  let ctx := sample_request (Some "uuid-0") ToolCall in
  let w' := (serve (delete_mcp ctx) one_session).2 in
  let pending := sample_request (Some "abc") ToolCall in
  let w'' := (serve (delete_mcp pending) just_inserted).2 in
  (transports w' = delete "uuid-0" (transports one_session) ∧
   serve (get_mcp ctx) w' = (invalid_session_response, w') ∧
   post_route ctx w' = Case3 ∧
   post_route_first ctx w' = FirstReject) ∧
  (transport_sessionId 1 just_inserted = None ∧
   transports w'' = transports just_inserted ∧
   post_route pending w'' = Case1).
Proof.
  intros ctx w' pending w''. split.
  - destruct (delete_then_requests ctx one_session "uuid-0" 0
                reachable_one_session eq_refl eq_refl eq_refl) as [H _].
    destruct (H eq_refl) as [H1 H2].
    split; [exact H1|]. exact (H2 eq_refl).
  - split; [reflexivity|].
    destruct (delete_then_requests pending just_inserted "abc" 1
                reachable_just_inserted eq_refl eq_refl eq_refl) as [_ H].
    exact (H eq_refl).
Defined.

Lemma post_first_rejects_unknown_token_witness :
  serve (post_mcp_first (sample_request (Some "zzz") Initialize))
        one_session =
    ({| ctx_status := 400;
        ctx_body :=
          BodyJsonRpcError "2.0" (-32000)
            "Bad Request: No valid session ID provided" None;
        ctx_headers := []; ctx_respond := true; res_headersSent := false |},
     one_session) ∧
  serve (post_mcp_first (sample_request (Some "toString") Initialize))
        one_session =
    ({| ctx_status := 500;
        ctx_body :=
          BodyJsonRpcError "2.0" (-32603) "Internal server error" None;
        ctx_headers := []; ctx_respond := true; res_headersSent := false |},
     one_session).
Proof.
  split.
  - apply (post_first_rejects_unknown_token
             (sample_request (Some "zzz") Initialize) one_session).
    left. exists "zzz". split; [reflexivity|]. split; reflexivity.
  - destruct (post_first_rejects_unknown_token
                (sample_request (Some "toString") Initialize) one_session)
      as [_ H].
    exact (H "toString" eq_refl eq_refl eq_refl).
Defined.

Lemma first_revision_stores_once_by_callback_witness :
  transports first_session !! "uuid-0" = Some 0 ∧
  stored_once_by_callback_only first_session 0 ∧
  ∃ t, heap first_session !! 0 = Some t ∧
       sessionIdGenerator t = GenRandomUUID ∧
       sessionId t = Some "uuid-0".
Proof.
  split; [reflexivity|].
  exact (first_revision_stores_once_by_callback first_session "uuid-0" 0
           served_first_first_session eq_refl).
Defined.

Lemma only_initialize_draws_uuid_witness :
  let ctx := sample_request None Initialize in
  post_route ctx one_session = Case2 ∧
  uuids one_session ≤ uuids (serve (post_mcp RevLogger ctx) one_session).2
    ≤ S (uuids one_session) ∧
  uuids (serve (get_mcp ctx) one_session).2 = uuids one_session ∧
  uuids (serve (delete_mcp ctx) one_session).2 = uuids one_session.
Proof.
  intros ctx. split; [reflexivity|].
  destruct (only_initialize_draws_uuid RevLogger ctx one_session
              reachable_one_session) as (H1 & _ & H3 & H4 & _).
  split; [exact (H1 eq_refl)|]. split; [exact H3|exact H4].
Defined.

Lemma cors_middleware_composes_witness :
  let h := post_mcp RevLogger (sample_request None Initialize) in
  serve (cors_middleware "POST" (requestLogger (try_catch h throw)))
        initial_world =
    (with_headers cors_headers (serve h initial_world).1,
     (serve h initial_world).2).
Proof.
  intros h.
  destruct (cors_middleware_composes "POST"
              (sample_request None Initialize) throw initial_world)
    as [_ H].
  apply H; [discriminate|]. apply elem_of_cons; left. reflexivity.
Defined.

Lemma multi_greet_stops_at_first_failure_witness :
  (multi_greet (env := sample_tool_env) "Ann" []).1 = ToolRaise.
Proof.
  destruct (multi_greet_stops_at_first_failure (env := sample_tool_env)
              "Ann" []) as (_ & H & _).
  apply H. reflexivity.
Defined.

Lemma notification_stream_sends_count_witness :
  ∃ tr' turns,
    start_notification_stream (env := sample_tool_env) 5 100 (5 # 2) [] =
      Some (ToolRet (text_result
              "Started sending periodic notifications every 100ms"), tr') ∧
    tr' = [] ++ concat turns ∧
    length turns = 3 ∧
    (∀ i evs, turns !! i = Some evs →
       evs =
         if send_resolves (ToolEnv := sample_tool_env) (0 + i)
         then [ToolSent "info" (NotePeriodic (Z.of_nat i + 1));
               ToolSlept 100]
         else [ToolSendFailed "info" (NotePeriodic (Z.of_nat i + 1));
               ToolLogged "error" "Error sending notification";
               ToolSlept 100]) ∧
    attempted tr' = [NotePeriodic 1; NotePeriodic 2; NotePeriodic 3] ∧
    slept tr' = [100%Q; 100%Q; 100%Q] ∧
    length (delivered tr') + length (logged tr') = 3.
Proof.
  apply (notification_stream_sends_count (env := sample_tool_env)
           5 100 (5 # 2) []).
  - discriminate.
  - vm_compute. discriminate.
  - vm_compute. lia.
Defined.

Lemma notification_stream_never_returns_witness :
  start_notification_stream (env := sample_tool_env) 7 100 0 [] = None.
Proof.
  apply (notification_stream_never_returns (env := sample_tool_env)).
  left. reflexivity.
Defined.
